(** * k-truss discovery: a shallow embedding of [ktruss.cu]

    The development follows the source file top to bottom: the CSR
    [Graph] record, the [countTriangles] kernel (one thread per edge, a
    two-pointer walk over two CSR rows), and the host function [kTruss]
    (edge arrays, device copies, kernel launch, the pruning loop and the
    final report).

    Conventions.
    - A C [int] is a [Z] and arithmetic is exact.  The source only
      computes [i++], [j++], [count++] (all bounded by a row end, see
      [count_edge_le]), [u + 1], [numNodes + 1], the grid size and the
      threshold [k - 2].  The exact threshold is the one the source
      computes on [int] as long as [k - 2] does not overflow, that is
      for [INT_MIN + 2 ≤ k] ([threshold_defined], [int_sub_exact]);
      below that the subtraction of lines 101 and 112 overflows (on a
      two's-complement machine the threshold wraps to a huge positive
      value and every edge is dropped, see [wrapped_threshold_run]) and
      the model does not describe the run.  Every statement whose
      content depends on the threshold of such a [k] carries the
      hypothesis [threshold_defined k].
    - An array is a [list].  An access outside an array, a failed
      allocation or a failed copy is undefined behaviour or an unchecked
      failure in the source, which does not stop there: the host checks
      nothing and lines 79-89 only print a CUDA error before going on to
      prune and to report.  What is computed from then on is not
      determined by the source, so the model ends such a run with
      [Fault] and says nothing more about it; an outcome [Ok] means
      that every access stayed inside its array.
    - The debug [printf]s are dropped; the lines printed after
      ["3-Truss Edges:"] are the value returned by [kTruss]. *)

From stdpp Require Import base tactics option list numbers sorting.

Open Scope Z_scope.

(** ** Outcomes of a run *)

Inductive result (A : Type) : Type :=
  | Ok (a : A)
  | Fault        (* an access left its array, or an allocation or copy
                    failed: from here on the source is undefined *)
  | OutOfFuel.   (* a [while] loop ran past its iteration budget *)
Arguments Ok {A} a.
Arguments Fault {A}.
Arguments OutOfFuel {A}.

#[global] Instance result_ret : MRet result := λ A a, Ok a.
#[global] Instance result_bind : MBind result := λ A B f r,
  match r with
  | Ok a => f a
  | Fault => Fault
  | OutOfFuel => OutOfFuel
  end.

(** [a[i]] for a C [int] index. *)
Definition rd {A} (a : list A) (i : Z) : result A :=
  if decide (0 ≤ i) then
    match a !! Z.to_nat i with
    | Some x => Ok x
    | None => Fault
    end
  else Fault.

(** [a[i] = x]. *)
Definition wr {A} (a : list A) (i : Z) (x : A) : result (list A) :=
  if decide (0 ≤ i < Z.of_nat (length a)) then Ok (<[Z.to_nat i := x]> a)
  else Fault.

(** [cudaMemcpy(dst, src, n * sizeof(int), ...)]: the first [n] cells of
    [src]; reading past the end of [src] is a fault. *)
Definition memcpy {A} (src : list A) (n : Z) : result (list A) :=
  if decide (0 ≤ n ≤ Z.of_nat (length src)) then Ok (take (Z.to_nat n) src)
  else Fault.

(** A counted loop [for (int i = 0; i < n; i++) body] threading a state. *)
Fixpoint for_from {St} (body : Z → St → result St) (i : Z) (todo : nat)
    (s : St) : result St :=
  match todo with
  | O => Ok s
  | S todo' => s' ← body i s; for_from body (i + 1) todo' s'
  end.

Definition for_loop {St} (n : Z) (body : Z → St → result St) (s : St)
  : result St :=
  for_from body 0 (Z.to_nat n) s.

(** ** The graph (source lines 6-12) *)

Record Graph : Type := mkGraph {
  rowPtr : list Z;            (* int* rowPtr *)
  colIdx : list Z;            (* int* colIdx *)
  numNodes : Z;
  numEdges : Z;
  edges : list (Z * Z)        (* std::vector<std::pair<int,int>> *)
}.

(** ** The kernel [countTriangles] (source lines 15-43) *)

(** The [while (i < uEnd && j < vEnd)] loop.  Every iteration advances [i]
    or [j], so [fuel] only has to cover the two row lengths
    (see [merge_loop_fuel]). *)
Fixpoint merge_loop (fuel : nat) (colIdx : list Z) (u v uEnd vEnd : Z)
    (i j count : Z) : result Z :=
  if bool_decide (i < uEnd ∧ j < vEnd) then
    match fuel with
    | O => OutOfFuel
    | S fuel' =>
      uNeighbor ← rd colIdx i;
      vNeighbor ← rd colIdx j;
      if bool_decide (uNeighbor = v) then
        merge_loop fuel' colIdx u v uEnd vEnd (i + 1) j count
      else if bool_decide (vNeighbor = u) then
        merge_loop fuel' colIdx u v uEnd vEnd i (j + 1) count
      else if bool_decide (uNeighbor = vNeighbor) then
        merge_loop fuel' colIdx u v uEnd vEnd (i + 1) (j + 1) (count + 1)
      else if bool_decide (uNeighbor < vNeighbor) then
        merge_loop fuel' colIdx u v uEnd vEnd (i + 1) j count
      else
        merge_loop fuel' colIdx u v uEnd vEnd i (j + 1) count
    end
  else Ok count.

(** The body of one thread, from the loads of [u] and [v] on: the value
    it stores into [support[edgeIdx]]. *)
Definition count_edge (rowPtr colIdx : list Z) (u v : Z) : result Z :=
  uStart ← rd rowPtr u;
  uEnd ← rd rowPtr (u + 1);
  vStart ← rd rowPtr v;
  vEnd ← rd rowPtr (v + 1);
  merge_loop (Z.to_nat (uEnd - uStart) + Z.to_nat (vEnd - vStart))
    colIdx u v uEnd vEnd uStart vStart 0.

(** One thread of the grid, acting on the device array [support]. *)
Definition countTriangles (rowPtr colIdx edgeSrc edgeDst : list Z)
    (numEdges : Z) (edgeIdx : Z) (support : list Z) : result (list Z) :=
  if bool_decide (edgeIdx >= numEdges) then Ok support
  else
    u ← rd edgeSrc edgeIdx;
    v ← rd edgeDst edgeIdx;
    count ← count_edge rowPtr colIdx u v;
    wr support edgeIdx count.

(** [countTriangles<<<blocks, threads>>>(...)]: every thread writes only
    its own slot of [support], so running the threads one after the other
    in index order gives the result of the grid. *)
Definition launch_countTriangles (blocks threads : Z)
    (rowPtr colIdx edgeSrc edgeDst : list Z) (numEdges : Z)
    (support : list Z) : result (list Z) :=
  for_loop (blocks * threads)
    (countTriangles rowPtr colIdx edgeSrc edgeDst numEdges) support.

(** ** The host function [kTruss] (source lines 46-118) *)

(** [std::vector<int> a(n)]: [n] zero-initialised cells; a negative [n]
    converts to a huge [size_t] and the allocation throws. *)
Definition new_vector (n : Z) : result (list Z) :=
  if decide (0 ≤ n) then Ok (replicate (Z.to_nat n) 0) else Fault.

(** Lines 48-52: the two edge arrays. *)
Definition populate_body (es : list (Z * Z)) (i : Z) (a : list Z * list Z)
  : result (list Z * list Z) :=
  e ← rd es i;
  edgeSrc ← wr a.1 i e.1;
  edgeDst ← wr a.2 i e.2;
  Ok (edgeSrc, edgeDst).

Definition populate (g : Graph) : result (list Z * list Z) :=
  edgeSrc ← new_vector (numEdges g);
  edgeDst ← new_vector (numEdges g);
  for_loop (numEdges g) (populate_body (edges g)) (edgeSrc, edgeDst).

(** Lines 60-89: device copies, kernel launch, copy back.  [cudaMalloc]
    leaves [d_support] uninitialised; the cells are given the value [0]
    here and are all overwritten by the grid.  The source checks none of
    these steps (lines 79-89 print and go on); the outcome is [Ok] when
    every copy and every access of every thread stays in range, and
    [Fault] stands for all the runs in which one does not. *)
Definition compute_support (g : Graph) (edgeSrc edgeDst : list Z)
  : result (list Z) :=
  nnz ← rd (rowPtr g) (numNodes g);
  d_rowPtr ← memcpy (rowPtr g) (numNodes g + 1);
  d_colIdx ← memcpy (colIdx g) nnz;
  d_edgeSrc ← memcpy edgeSrc (numEdges g);
  d_edgeDst ← memcpy edgeDst (numEdges g);
  d_support ← new_vector (numEdges g);
  let threads := 256 in
  let blocks := (numEdges g + threads - 1) `quot` threads in
  d_support ← launch_countTriangles blocks threads
                 d_rowPtr d_colIdx d_edgeSrc d_edgeDst (numEdges g) d_support;
  support ← new_vector (numEdges g);
  memcpy d_support (numEdges g).

(** Lines 100-105: one sweep over the support vector.  The state is the
    vector together with the flag [changed].  The threshold [k - 2] is
    exact; it is the [int] value of line 101 when [threshold_defined k]. *)
Definition prune_body (k : Z) (i : Z) (st : list Z * bool)
  : result (list Z * bool) :=
  s ← rd st.1 i;
  if bool_decide (s >= 0 ∧ s < k - 2) then
    support ← wr st.1 i (-1);
    Ok (support, true)
  else Ok st.

Definition prune_pass (k n : Z) (support : list Z) : result (list Z * bool) :=
  for_loop n (prune_body k) (support, false).

(** Lines 98-107: the outer loop.  [rounds] counts the sweeps that were
    run and [converged] tells whether the loop left through [break]
    (a sweep that changed nothing) rather than through [iter < numEdges]. *)
Record pruned : Type := mkPruned {
  final : list Z;
  rounds : nat;
  converged : bool
}.

Fixpoint prune_from (k n : Z) (todo : nat) (iter : nat) (support : list Z)
  : result pruned :=
  match todo with
  | O => Ok (mkPruned support iter false)
  | S todo' =>
    '(support', changed) ← prune_pass k n support;
    if changed : bool then prune_from k n todo' (S iter) support'
    else Ok (mkPruned support' (S iter) true)
  end.

Definition prune (k n : Z) (support : list Z) : result pruned :=
  prune_from k n (Z.to_nat n) 0%nat support.

(** Lines 110-115: one printed line per remaining edge.  As in the
    sweep, [k - 2] is the [int] value of line 112 when
    [threshold_defined k]. *)
Record report : Type := mkReport {
  r_index : Z;
  r_src : Z;
  r_dst : Z;
  r_support : Z
}.

Definition remaining_body (k : Z) (edgeSrc edgeDst support : list Z) (i : Z)
    (out : list report) : result (list report) :=
  s ← rd support i;
  if bool_decide (s >= k - 2) then
    u ← rd edgeSrc i;
    v ← rd edgeDst i;
    Ok (out ++ [mkReport i u v s])
  else Ok out.

Definition remaining (k n : Z) (edgeSrc edgeDst support : list Z)
  : result (list report) :=
  for_loop n (remaining_body k edgeSrc edgeDst support) [].

(** Lines 47-89 as one step: the support vector before pruning. *)
Definition initial_support (g : Graph) : result (list Z) :=
  '(edgeSrc, edgeDst) ← populate g;
  compute_support g edgeSrc edgeDst.

Definition kTruss (g : Graph) (k : Z) : result (list report) :=
  '(edgeSrc, edgeDst) ← populate g;
  support ← compute_support g edgeSrc edgeDst;
  p ← prune k (numEdges g) support;
  remaining k (numEdges g) edgeSrc edgeDst (final p).

(** ** Vocabulary of the statements *)

(** The range of [int], and [a - b] as a two's-complement machine
    evaluates it on [int]. *)
Definition int_min : Z := -2147483648.
Definition int_max : Z := 2147483647.

Definition int_sub (a b : Z) : Z :=
  (a - b - int_min) `mod` (int_max - int_min + 1) + int_min.

(** The subtraction [k - 2] of lines 101 and 112 does not overflow ([k]
    being an [int], it can only do so downwards). *)
Definition threshold_defined (k : Z) : Prop := int_min ≤ k - 2.

(** The removal test of line 101, and what one sweep does to a cell. *)
Definition below (k s : Z) : Prop := s >= 0 ∧ s < k - 2.

Definition mark (k s : Z) : Z := if bool_decide (below k s) then -1 else s.

(** An edge is alive while its cell is not the marker. *)
Definition alive_count (support : list Z) : nat :=
  length (filter (λ s, 0 ≤ s) support).

(** One output line per edge, before any filtering. *)
Fixpoint reports_from (i : Z) (es : list (Z * Z)) (support : list Z)
  : list report :=
  match es, support with
  | e :: es', s :: support' =>
    mkReport i e.1 e.2 s :: reports_from (i + 1) es' support'
  | _, _ => []
  end.

Definition all_reports (es : list (Z * Z)) (support : list Z) : list report :=
  reports_from 0 es support.

(** The edges the code looks at: the first [numEdges] of [g.edges]. *)
Definition edge_list (g : Graph) : list (Z * Z) :=
  take (Z.to_nat (numEdges g)) (edges g).

Definition kept (k : Z) (r : report) : Prop := r_support r >= k - 2.

#[local] Instance below_dec k s : Decision (below k s).
Proof. unfold below. apply _. Defined.

#[local] Instance kept_dec k r : Decision (kept k r).
Proof. unfold kept. apply _. Defined.

(** The device copies of the CSR arrays (lines 68-69). *)
Definition dev_rowPtr (g : Graph) : list Z :=
  take (Z.to_nat (numNodes g + 1)) (rowPtr g).

Definition dev_colIdx (g : Graph) : list Z :=
  take (Z.to_nat (rowPtr g !!! Z.to_nat (numNodes g))) (colIdx g).

(** The pruning loop read as one filter over the initial support vector:
    keep the edges whose initial support is at least [k - 2], with that
    value. *)
Definition kTruss_filter (g : Graph) (k : Z) : result (list report) :=
  support ← initial_support g;
  Ok (filter (kept k) (all_reports (edge_list g) support)).

Definition surviving (out : list report) : list (Z * Z) :=
  (λ r, (r_src r, r_dst r)) <$> out.

(** "Rejected": the run does not come back with a report. *)
Definition rejected (r : result (list report)) : Prop := ∀ out, r ≠ Ok out.

(** *** Graphs *)

(** [{u,w}] is an edge of the undirected graph with edge list [es]. *)
Definition adjacent (es : list (Z * Z)) (u w : Z) : Prop :=
  (u, w) ∈ es ∨ (w, u) ∈ es.

#[local] Instance adjacent_dec es u w : Decision (adjacent es u w).
Proof. unfold adjacent. apply _. Defined.

(** The cells [a[i .. e)]. *)
Definition slice (a : list Z) (i e : Z) : list Z :=
  take (Z.to_nat (e - i)) (drop (Z.to_nat i) a).

(** The CSR row of [u]: [colIdx[rowPtr[u] .. rowPtr[u+1])]. *)
Definition row (rp ci : list Z) (u : Z) : list Z :=
  slice ci (rp !!! Z.to_nat u) (rp !!! Z.to_nat (u + 1)).

(** What the two-pointer walk counts: the members of [la] other than [v]
    that also occur in [lb] and are not [u]. *)
Definition merge_common (u v : Z) (la lb : list Z) : list Z :=
  filter (λ w, w ≠ v ∧ w ≠ u ∧ w ∈ lb) la.

Definition neighbours (g : Graph) (u : Z) : list Z :=
  row (rowPtr g) (colIdx g) u.

(** The nodes [w] that close a triangle over [{u,v}] inside [es]. *)
Definition common_neighbours (n : Z) (es : list (Z * Z)) (u v : Z) : list Z :=
  filter (λ w, adjacent es u w ∧ adjacent es v w) (seqZ 0 n).

(** Support of an edge counted among the edges [alive] only. *)
Definition triangle_support (n : Z) (alive : list (Z * Z)) (e : Z * Z) : Z :=
  Z.of_nat (length (common_neighbours n alive e.1 e.2)).

(** Endpoints in range, no self-loop, no edge listed twice (in either
    orientation). *)
Definition simple_edges (n : Z) (es : list (Z * Z)) : Prop :=
  Forall (λ e, 0 ≤ e.1 < n ∧ 0 ≤ e.2 < n ∧ e.1 ≠ e.2) es
  ∧ NoDup es
  ∧ Forall (λ e, (e.2, e.1) ∉ es) es.

(** [rowPtr] has [numNodes + 1] non-decreasing entries running from [0]
    to the length of [colIdx]. *)
Definition csr_shape (g : Graph) : Prop :=
  0 < numNodes g
  ∧ Z.of_nat (length (rowPtr g)) = numNodes g + 1
  ∧ rowPtr g !! 0%nat = Some 0
  ∧ Sorted Z.le (rowPtr g)
  ∧ last (rowPtr g) = Some (Z.of_nat (length (colIdx g))).

(** Every row is strictly ascending and lists exactly the neighbours of
    its node. *)
Definition csr_rows (g : Graph) : Prop :=
  Forall (λ u,
    Sorted Z.lt (neighbours g u)
    ∧ Forall (adjacent (edges g) u) (neighbours g u)
    ∧ Forall (λ w, adjacent (edges g) u w → w ∈ neighbours g u)
             (seqZ 0 (numNodes g)))
  (seqZ 0 (numNodes g)).

(** A simple undirected graph in well-formed CSR form. *)
Definition valid_graph (g : Graph) : Prop :=
  numEdges g = Z.of_nat (length (edges g))
  ∧ simple_edges (numNodes g) (edges g)
  ∧ csr_shape g
  ∧ csr_rows g.

#[local] Instance valid_graph_dec g : Decision (valid_graph g).
Proof. unfold valid_graph, simple_edges, csr_shape, csr_rows. apply _. Defined.

(** *** Example graphs *)

(** The graph hard-coded in [main] (lines 122-128).  Its CSR arrays do
    not describe its edge list: node 3 is missing from the rows of 1
    and 2. *)
Definition main_graph : Graph :=
  mkGraph [0; 2; 4; 6; 7] [1; 2; 0; 2; 0; 1; 3; 3] 4 5
          [(0, 1); (0, 2); (1, 2); (1, 3); (2, 3)].

(** Two triangles glued along [{1,2}]: the same edge list in well-formed
    CSR form. *)
Definition diamond : Graph :=
  mkGraph [0; 2; 5; 8; 10] [1; 2; 0; 2; 3; 0; 1; 3; 1; 2] 4 5
          [(0, 1); (0, 2); (1, 2); (1, 3); (2, 3)].

(** The edge [{1,2}] alone, on the same four nodes. *)
Definition diamond_core : Graph :=
  mkGraph [0; 0; 1; 2; 2] [2; 1] 4 1 [(1, 2)].

(** One edge on two nodes. *)
Definition single_edge : Graph :=
  mkGraph [0; 1; 2] [1; 0] 2 1 [(0, 1)].

(** The path 0 - 1 - 2. *)
Definition path3 : Graph :=
  mkGraph [0; 1; 3; 4] [1; 0; 2; 1] 3 2 [(0, 1); (1, 2)].

(** *** Further vocabulary *)

(** The count the kernel returns for an edge, [0] when the thread does
    not come back. *)
Definition cnt (g : Graph) (e : Z * Z) : Z :=
  match count_edge (dev_rowPtr g) (dev_colIdx g) e.1 e.2 with
  | Ok c => c
  | _ => 0
  end.

(** The same CSR arrays with another edge list. *)
Definition with_edges (g : Graph) (es : list (Z * Z)) : Graph :=
  mkGraph (rowPtr g) (colIdx g) (numNodes g) (Z.of_nat (length es)) es.

(** Sizes and indices under which no access can leave an array: the
    edge count fits the edge list, [rowPtr[numNodes]] cells of [colIdx]
    exist, every row pointer up to [numNodes] points into them, and
    every endpoint is a node.  Rows need not be sorted nor match the
    edge list. *)
Definition in_bounds (g : Graph) : Prop :=
  0 ≤ numEdges g ≤ Z.of_nat (length (edges g))
  ∧ 0 ≤ rowPtr g !!! Z.to_nat (numNodes g) ≤ Z.of_nat (length (colIdx g))
  ∧ 0 ≤ numNodes g < Z.of_nat (length (rowPtr g))
  ∧ Forall (λ p, 0 ≤ p ≤ rowPtr g !!! Z.to_nat (numNodes g)) (dev_rowPtr g)
  ∧ Forall (λ e, 0 ≤ e.1 < numNodes g ∧ 0 ≤ e.2 < numNodes g) (edge_list g).

#[local] Instance in_bounds_dec g : Decision (in_bounds g).
Proof. unfold in_bounds. apply _. Defined.

(** Two nodes and no edge. *)
Definition isolated : Graph := mkGraph [0; 0; 0] [] 2 0 [].

(** [main] (lines 120-131): the hard-coded graph, threshold 3. *)
Definition main : result (list report) := kTruss main_graph 3.


(** ** Generic facts: the monad and the counted loop *)

Lemma bind_Ok {A B} (r : result A) (f : A → result B) b :
  r ≫= f = Ok b ↔ ∃ a, r = Ok a ∧ f a = Ok b.
Proof.
  destruct r as [a| |]; simpl; split.
  - intros H. by exists a.
  - by intros (a' & [= <-] & H).
  - intros [=].
  - by intros (a' & [=] & _).
  - intros [=].
  - by intros (a' & [=] & _).
Qed.

Lemma rd_Ok {A} (a : list A) i x :
  rd a i = Ok x ↔ 0 ≤ i ∧ a !! Z.to_nat i = Some x.
Proof.
  unfold rd. case_decide as Hi.
  - destruct (a !! Z.to_nat i) as [y|]; split.
    + by intros [= ->].
    + by intros [_ [= ->]].
    + intros [=].
    + intros [_ [=]].
  - split; [intros [=]|]. intros [? _]. lia.
Qed.

Lemma rd_fuel {A} (a : list A) i : rd a i ≠ OutOfFuel.
Proof. unfold rd. repeat case_match; done. Qed.

Lemma wr_Ok {A} (a : list A) i x a' :
  wr a i x = Ok a' ↔ 0 ≤ i < Z.of_nat (length a) ∧ a' = <[Z.to_nat i := x]> a.
Proof.
  unfold wr. case_decide as Hi; split.
  - by intros [= <-].
  - by intros [_ ->].
  - intros [=].
  - by intros [? _].
Qed.

Lemma memcpy_Ok {A} (a : list A) n a' :
  memcpy a n = Ok a' ↔ 0 ≤ n ≤ Z.of_nat (length a) ∧ a' = take (Z.to_nat n) a.
Proof.
  unfold memcpy. case_decide as Hn; split.
  - by intros [= <-].
  - by intros [_ ->].
  - intros [=].
  - by intros [? _].
Qed.

Lemma new_vector_Ok n a :
  new_vector n = Ok a ↔ 0 ≤ n ∧ a = replicate (Z.to_nat n) 0.
Proof.
  unfold new_vector. case_decide as Hn; split.
  - by intros [= <-].
  - by intros [_ ->].
  - intros [=].
  - by intros [? _].
Qed.

Lemma memcpy_total {A} (a : list A) n :
  0 ≤ n ≤ Z.of_nat (length a) → memcpy a n = Ok (take (Z.to_nat n) a).
Proof. intros. by apply memcpy_Ok. Qed.

Lemma new_vector_total n :
  0 ≤ n → new_vector n = Ok (replicate (Z.to_nat n) 0).
Proof. intros. by apply new_vector_Ok. Qed.

Ltac inv_run :=
  repeat match goal with
  | H : _ ≫= _ = Ok _ |- _ => apply bind_Ok in H as (? & ? & H)
  | H : rd _ _ = Ok _ |- _ => apply rd_Ok in H as [? H]
  | H : wr _ _ _ = Ok _ |- _ => apply wr_Ok in H as [? ->]
  | H : memcpy _ _ = Ok _ |- _ => apply memcpy_Ok in H as [? ->]
  | H : new_vector _ = Ok _ |- _ => apply new_vector_Ok in H as [? ->]
  | H : Ok _ = Ok _ |- _ => injection H as H
  end.

(** Total form: an invariant that every iteration re-establishes gives
    the final state. *)
Lemma for_from_total {St} (P : Z → St → Prop) (body : Z → St → result St) todo :
  ∀ i s,
    P i s →
    (∀ j t, i ≤ j < i + Z.of_nat todo → P j t →
            ∃ t', body j t = Ok t' ∧ P (j + 1) t') →
    ∃ s', for_from body i todo s = Ok s' ∧ P (i + Z.of_nat todo) s'.
Proof.
  induction todo as [|todo IH]; intros i s HP Hstep; simpl.
  - exists s. split; [done|]. by replace (i + Z.of_nat 0) with i by lia.
  - destruct (Hstep i s) as (t & -> & Ht); [lia|done|]. simpl.
    destruct (IH (i + 1) t Ht) as (s' & -> & Hs').
    + intros j u Hj. apply Hstep. lia.
    + exists s'. split; [done|].
      by replace (i + Z.of_nat (S todo)) with (i + 1 + Z.of_nat todo) by lia.
Qed.

(** Partial form: what a run that came back says about its final state. *)
Lemma for_from_partial {St} (P : Z → St → Prop) (body : Z → St → result St) todo :
  ∀ i s s',
    for_from body i todo s = Ok s' →
    P i s →
    (∀ j t t', i ≤ j < i + Z.of_nat todo → P j t → body j t = Ok t' →
               P (j + 1) t') →
    P (i + Z.of_nat todo) s'.
Proof.
  induction todo as [|todo IH]; intros i s s' Hrun HP Hstep; simpl in Hrun.
  - injection Hrun as <-. by replace (i + Z.of_nat 0) with i by lia.
  - apply bind_Ok in Hrun as (t & Hb & Hrun).
    replace (i + Z.of_nat (S todo)) with (i + 1 + Z.of_nat todo) by lia.
    apply (IH (i + 1) t s' Hrun).
    + apply (Hstep i s t); [lia|done..].
    + intros j u u' Hj. apply Hstep. lia.
Qed.

Lemma for_loop_total {St} (P : Z → St → Prop) n (body : Z → St → result St) s :
  0 ≤ n → P 0 s →
  (∀ j t, 0 ≤ j < n → P j t → ∃ t', body j t = Ok t' ∧ P (j + 1) t') →
  ∃ s', for_loop n body s = Ok s' ∧ P n s'.
Proof.
  intros Hn HP Hstep.
  destruct (for_from_total P body (Z.to_nat n) 0 s HP) as (s' & Hrun & Hs').
  - intros j t Hj. apply Hstep. lia.
  - exists s'. split; [done|]. by replace n with (0 + Z.of_nat (Z.to_nat n)) by lia.
Qed.

Lemma for_loop_partial {St} (P : Z → St → Prop) n (body : Z → St → result St) s s' :
  0 ≤ n → for_loop n body s = Ok s' → P 0 s →
  (∀ j t t', 0 ≤ j < n → P j t → body j t = Ok t' → P (j + 1) t') →
  P n s'.
Proof.
  intros Hn Hrun HP Hstep.
  replace n with (0 + Z.of_nat (Z.to_nat n)) by lia.
  apply (for_from_partial P body (Z.to_nat n) 0 s s' Hrun HP).
  intros j t t' Hj. apply Hstep. lia.
Qed.


(** ** The pruning loop *)

Lemma mark_not_below k s : ¬ below k (mark k s).
Proof. unfold mark, below. case_bool_decide; unfold below in *; lia. Qed.

Lemma mark_id k s : ¬ below k s → mark k s = s.
Proof. unfold mark. by case_bool_decide. Qed.

Lemma mark_fmap_id k (l : list Z) : ¬ Exists (below k) l → mark k <$> l = l.
Proof.
  induction l as [|s l IH]; intros H; [done|]. csimpl.
  rewrite mark_id, IH; [done|..]; intros ?; apply H; by constructor.
Qed.

Lemma mark_fmap_not_below k (l : list Z) : ¬ Exists (below k) (mark k <$> l).
Proof.
  rewrite Exists_fmap, <-Forall_Exists_neg. apply Forall_true. intros s.
  apply mark_not_below.
Qed.

(** One sweep marks exactly the cells that pass the test of line 101 and
    raises [changed] iff there was one. *)
Lemma prune_pass_spec k n (support : list Z) :
  Z.of_nat (length support) = n →
  prune_pass k n support
  = Ok (mark k <$> support, bool_decide (Exists (below k) support)).
Proof.
  intros Hlen. unfold prune_pass.
  destruct (for_loop_total
    (λ j st, st.1 = (mark k <$> take (Z.to_nat j) support)
                    ++ drop (Z.to_nat j) support
             ∧ st.2 = bool_decide (Exists (below k) (take (Z.to_nat j) support)))
    n (prune_body k) (support, false)) as ([s ch] & -> & Hs & Hch).
  - lia.
  - done.
  - intros j [s ch] Hj [Hs Hch]; simpl in *.
    destruct (lookup_lt_is_Some_2 support (Z.to_nat j)) as [x Hx]; [lia|].
    assert (Hjl : length (mark k <$> take (Z.to_nat j) support) = Z.to_nat j).
    { rewrite length_fmap, length_take. lia. }
    assert (Hrd : rd s j = Ok x).
    { apply rd_Ok. split; [lia|]. rewrite Hs, lookup_app_r by lia.
      rewrite Hjl, Nat.sub_diag, lookup_drop, Nat.add_0_r. done. }
    replace (Z.to_nat (j + 1)) with (S (Z.to_nat j)) by lia.
    rewrite (take_S_r _ _ _ Hx), fmap_app.
    assert (Hex : Exists (below k) (take (Z.to_nat j) support ++ [x])
                  ↔ Exists (below k) (take (Z.to_nat j) support) ∨ below k x).
    { rewrite Exists_app, Exists_cons, Exists_nil. tauto. }
    unfold prune_body. simpl. rewrite Hrd. simpl.
    assert (Hsplit : s = (mark k <$> take (Z.to_nat j) support)
                           ++ x :: drop (S (Z.to_nat j)) support).
    { by rewrite Hs, (drop_S _ _ _ Hx). }
    destruct (decide (below k x)) as [Hb|Hb].
    + assert (Hwr : wr s j (-1)
                = Ok ((mark k <$> take (Z.to_nat j) support)
                        ++ -1 :: drop (S (Z.to_nat j)) support)).
      { apply wr_Ok. split.
        - rewrite Hs, length_app, Hjl, length_drop. lia.
        - rewrite Hsplit, insert_app_r_alt by lia.
          by rewrite Hjl, Nat.sub_diag. }
      rewrite (bool_decide_eq_true_2 (x >= 0 ∧ x < k - 2) Hb), Hwr. simpl.
      eexists. split; [done|]. simpl. split.
      * rewrite <-app_assoc. simpl. unfold mark.
        by rewrite (bool_decide_eq_true_2 _ Hb).
      * symmetry. apply bool_decide_eq_true. tauto.
    + rewrite (bool_decide_eq_false_2 (x >= 0 ∧ x < k - 2) Hb).
      eexists. split; [done|]. simpl. split.
      * rewrite <-app_assoc. simpl. by rewrite mark_id, Hsplit.
      * rewrite Hch. apply bool_decide_ext. tauto.
  - simpl in *. f_equal. rewrite Hs, Hch.
    rewrite take_ge, drop_ge, app_nil_r by lia. done.
Qed.

(** The whole loop: the first sweep does all the work. *)
Lemma prune_spec k n (support : list Z) :
  Z.of_nat (length support) = n →
  prune k n support
  = Ok (mkPruned (mark k <$> support)
          (if decide (n = 0) then 0
           else if decide (Exists (below k) support ∧ 2 ≤ n) then 2 else 1)
          (bool_decide (n ≠ 0 ∧ (Exists (below k) support → 2 ≤ n)))).
Proof.
  intros Hlen. unfold prune.
  destruct (Z.to_nat n) as [|[|m]] eqn:Hn; simpl.
  - assert (support = []) as -> by (apply length_zero_iff_nil; lia).
    rewrite decide_True by lia. simpl. f_equal. f_equal.
    symmetry. apply bool_decide_eq_false. lia.
  - rewrite prune_pass_spec by done. simpl.
    rewrite decide_False by lia.
    rewrite (decide_False (P := _ ∧ _)) by lia.
    case_bool_decide as Hex; simpl.
    + f_equal. f_equal. symmetry. apply bool_decide_eq_false. intros [_ H].
      specialize (H Hex). lia.
    + rewrite bool_decide_eq_true_2 by (split; [lia|done]).
      done.
  - rewrite prune_pass_spec by done. simpl.
    rewrite decide_False by lia.
    case_bool_decide as Hex; simpl.
    + rewrite prune_pass_spec by (rewrite length_fmap; done). simpl.
      rewrite (bool_decide_eq_false_2 (Exists _ (_ <$> _)))
        by apply mark_fmap_not_below.
      simpl. rewrite mark_fmap_id by apply mark_fmap_not_below.
      rewrite decide_True by (split; [done|lia]).
      rewrite bool_decide_eq_true_2 by (split; lia). done.
    + rewrite decide_False by tauto.
      rewrite bool_decide_eq_true_2 by (split; [lia|done]). done.
Qed.

(** ** The report *)

Lemma reports_from_nil_r i es : reports_from i es [] = [].
Proof. by destruct es. Qed.

Lemma remaining_spec k n es (support : list Z) :
  Z.of_nat (length es) = n → Z.of_nat (length support) = n →
  remaining k n es.*1 es.*2 support
  = Ok (filter (kept k) (all_reports es support)).
Proof.
  intros Hes Hsup. unfold remaining, all_reports.
  destruct (for_loop_total
    (λ j out, out ++ filter (kept k)
                  (reports_from j (drop (Z.to_nat j) es)
                                  (drop (Z.to_nat j) support))
              = filter (kept k) (reports_from 0 es support))
    n (remaining_body k es.*1 es.*2 support) []) as (out & -> & Hout).
  - lia.
  - done.
  - intros j out Hj Hinv.
    destruct (lookup_lt_is_Some_2 es (Z.to_nat j)) as [e He]; [lia|].
    destruct (lookup_lt_is_Some_2 support (Z.to_nat j)) as [s Hs]; [lia|].
    rewrite (drop_S _ _ _ He), (drop_S _ _ _ Hs) in Hinv. simpl in Hinv.
    replace (Z.to_nat (j + 1)) with (S (Z.to_nat j)) by lia.
    unfold remaining_body.
    assert (rd support j = Ok s) as -> by (apply rd_Ok; split; [lia|done]).
    simpl. destruct (decide (kept k (mkReport j e.1 e.2 s))) as [Hk|Hk].
    + rewrite (bool_decide_eq_true_2 (s >= k - 2) Hk).
      assert (rd es.*1 j = Ok e.1) as ->.
      { apply rd_Ok. split; [lia|]. by rewrite list_lookup_fmap, He. }
      assert (rd es.*2 j = Ok e.2) as ->.
      { apply rd_Ok. split; [lia|]. by rewrite list_lookup_fmap, He. }
      simpl. eexists. split; [done|].
      rewrite filter_cons_True in Hinv by done.
      by rewrite <-app_assoc.
    + rewrite (bool_decide_eq_false_2 (s >= k - 2) Hk).
      eexists. split; [done|].
      by rewrite filter_cons_False in Hinv by done.
  - f_equal. rewrite <-Hout.
    rewrite (drop_ge support), reports_from_nil_r by lia.
    by rewrite filter_nil, app_nil_r.
Qed.

(** Marked cells were below the threshold and stay so: the filter of
    lines 111-115 does not see the difference. *)
Lemma filter_kept_mark k es (support : list Z) i :
  filter (kept k) (reports_from i es (mark k <$> support))
  = filter (kept k) (reports_from i es support).
Proof.
  revert i support. induction es as [|e es IH]; intros i [|s support]; try done.
  csimpl. rewrite !filter_cons, IH.
  destruct (decide (below k s)) as [Hb|Hb]; unfold mark.
  - rewrite (bool_decide_eq_true_2 _ Hb).
    rewrite !decide_False; [done|unfold kept, below in *; simpl; lia..].
  - by rewrite (bool_decide_eq_false_2 _ Hb).
Qed.

(** ** The edge arrays *)

Lemma populate_total g :
  0 ≤ numEdges g ≤ Z.of_nat (length (edges g)) →
  populate g = Ok ((edge_list g).*1, (edge_list g).*2).
Proof.
  intros Hn. unfold populate, new_vector. rewrite decide_True by lia. simpl.
  set (n := Z.to_nat (numEdges g)).
  destruct (for_loop_total
    (λ j a, a.1 = (take (Z.to_nat j) (edges g)).*1
                    ++ replicate (n - Z.to_nat j) 0
            ∧ a.2 = (take (Z.to_nat j) (edges g)).*2
                    ++ replicate (n - Z.to_nat j) 0)
    (numEdges g) (populate_body (edges g)) (replicate n 0, replicate n 0))
    as ([src dst] & -> & Hsrc & Hdst).
  - lia.
  - simpl. by rewrite Nat.sub_0_r.
  - intros j [src dst] Hj [Hsrc Hdst]; simpl in *.
    destruct (lookup_lt_is_Some_2 (edges g) (Z.to_nat j)) as [e He]; [lia|].
    unfold populate_body.
    assert (rd (edges g) j = Ok e) as -> by (apply rd_Ok; split; [lia|done]).
    simpl.
    assert (Hlen : ∀ A (f : Z * Z → A),
              length (f <$> take (Z.to_nat j) (edges g)) = Z.to_nat j).
    { intros. rewrite length_fmap, length_take. lia. }
    assert (Hcell : ∀ x (f : Z * Z → Z),
      <[Z.to_nat j := x]>
        ((f <$> take (Z.to_nat j) (edges g)) ++ replicate (n - Z.to_nat j) 0)
      = (f <$> take (Z.to_nat j) (edges g)) ++ [x]
          ++ replicate (n - S (Z.to_nat j)) 0).
    { intros x f. rewrite insert_app_r_alt by (rewrite Hlen; lia).
      rewrite Hlen, Nat.sub_diag.
      replace (n - Z.to_nat j)%nat with (S (n - S (Z.to_nat j))) by lia.
      done. }
    unfold wr. rewrite Hsrc, Hdst, !length_app, !Hlen, !length_replicate.
    rewrite decide_True by lia. simpl. rewrite decide_True by lia. simpl.
    eexists. split; [done|]. simpl.
    replace (Z.to_nat (j + 1)) with (S (Z.to_nat j)) by lia.
    rewrite (take_S_r _ _ _ He), !fmap_app, !Hcell, <-!app_assoc. done.
  - simpl in *. rewrite Hsrc, Hdst. unfold edge_list. fold n.
    by rewrite Nat.sub_diag, !app_nil_r.
Qed.

Lemma populate_Ok g a :
  populate g = Ok a ↔
  0 ≤ numEdges g ≤ Z.of_nat (length (edges g))
  ∧ a = ((edge_list g).*1, (edge_list g).*2).
Proof.
  split.
  - intros Hrun.
    assert (Hn : 0 ≤ numEdges g ≤ Z.of_nat (length (edges g))).
    { unfold populate in Hrun. inv_run.
      split; [done|].
      match goal with H : for_loop _ _ _ = Ok _ |- _ =>
        apply (for_loop_partial
                 (λ j _, j ≤ Z.of_nat (length (edges g))) _ _ _ _ ltac:(done) H)
      end; [lia|].
      intros j t t' Hj _ Hb. unfold populate_body in Hb. inv_run.
      match goal with H : edges g !! _ = Some _ |- _ =>
        apply lookup_lt_Some in H end. lia. }
    split; [done|]. rewrite populate_total in Hrun by done. congruence.
  - intros [Hn ->]. by apply populate_total.
Qed.

Lemma length_edge_list g :
  0 ≤ numEdges g ≤ Z.of_nat (length (edges g)) →
  Z.of_nat (length (edge_list g)) = numEdges g.
Proof. intros Hn. unfold edge_list. rewrite length_take. lia. Qed.

(** ** The kernel launch *)

(** The [while] loop never runs out of the budget [count_edge] gives it. *)
Lemma merge_loop_fuel colIdx u v uEnd vEnd fuel :
  ∀ i j count,
    (Z.to_nat (uEnd - i) + Z.to_nat (vEnd - j) ≤ fuel)%nat →
    merge_loop fuel colIdx u v uEnd vEnd i j count ≠ OutOfFuel.
Proof.
  induction fuel as [|fuel IH]; intros i j count Hfuel; simpl.
  - case_bool_decide; [lia|done].
  - case_bool_decide as Hij; [|done].
    destruct (rd colIdx i) as [a| |] eqn:Ha; simpl;
      [|done|by apply rd_fuel in Ha].
    destruct (rd colIdx j) as [b| |] eqn:Hb; simpl;
      [|done|by apply rd_fuel in Hb].
    repeat case_bool_decide; apply IH; lia.
Qed.

(** The counter only grows. *)
Lemma merge_loop_ge colIdx u v uEnd vEnd fuel :
  ∀ i j count c,
    merge_loop fuel colIdx u v uEnd vEnd i j count = Ok c → count ≤ c.
Proof.
  induction fuel as [|fuel IH]; intros i j count c; simpl.
  - case_bool_decide; [intros [=]|]. intros [= ->]. lia.
  - case_bool_decide as Hij; [|intros [= ->]; lia].
    destruct (rd colIdx i) as [a| |]; simpl; [|intros [=]..].
    destruct (rd colIdx j) as [b| |]; simpl; [|intros [=]..].
    repeat case_bool_decide; intros Hrun%IH; lia.
Qed.

(** ... by at most one per cell of the first row that is still to be
    scanned: [count++] stays within the range of [i]. *)
Lemma merge_loop_le colIdx u v uEnd vEnd fuel :
  ∀ i j count c,
    merge_loop fuel colIdx u v uEnd vEnd i j count = Ok c →
    c ≤ count + Z.max 0 (uEnd - i).
Proof.
  induction fuel as [|fuel IH]; intros i j count c; simpl.
  - case_bool_decide; [intros [=]|]. intros [= ->]. lia.
  - case_bool_decide as Hij; [|intros [= ->]; lia].
    destruct (rd colIdx i) as [a| |]; simpl; [|intros [=]..].
    destruct (rd colIdx j) as [b| |]; simpl; [|intros [=]..].
    repeat case_bool_decide; intros Hrun%IH; lia.
Qed.

Lemma count_edge_nonneg rp ci u v c : count_edge rp ci u v = Ok c → 0 ≤ c.
Proof. unfold count_edge. intros H. inv_run. by apply merge_loop_ge in H. Qed.

Lemma count_edge_le rp ci u v c uStart uEnd :
  rd rp u = Ok uStart → rd rp (u + 1) = Ok uEnd →
  count_edge rp ci u v = Ok c → c ≤ Z.max 0 (uEnd - uStart).
Proof.
  unfold count_edge. intros -> ->. simpl. intros H.
  apply bind_Ok in H as (vStart & _ & H). apply bind_Ok in H as (vEnd & _ & H).
  apply merge_loop_le in H. lia.
Qed.

Lemma count_edge_fuel rp ci u v : count_edge rp ci u v ≠ OutOfFuel.
Proof.
  unfold count_edge.
  destruct (rd rp u) as [a| |] eqn:Ha; simpl;
    [|done|by apply rd_fuel in Ha].
  destruct (rd rp (u + 1)) as [b| |] eqn:Hb; simpl;
    [|done|by apply rd_fuel in Hb].
  destruct (rd rp v) as [a'| |] eqn:Ha'; simpl;
    [|done|by apply rd_fuel in Ha'].
  destruct (rd rp (v + 1)) as [b'| |] eqn:Hb'; simpl;
    [|done|by apply rd_fuel in Hb'].
  apply merge_loop_fuel. lia.
Qed.

(** What the grid leaves in [support]: the count of every edge. *)
Lemma launch_partial rp ci src dst n blocks threads (s0 s : list Z) :
  0 ≤ n ≤ blocks * threads → Z.of_nat (length s0) = n →
  launch_countTriangles blocks threads rp ci src dst n s0 = Ok s →
  Z.of_nat (length s) = n
  ∧ ∀ e, 0 ≤ e < n →
      ∃ u v c, rd src e = Ok u ∧ rd dst e = Ok v
               ∧ count_edge rp ci u v = Ok c ∧ s !! Z.to_nat e = Some c.
Proof.
  intros HB Hlen Hrun. unfold launch_countTriangles in Hrun.
  assert (Hinv := for_loop_partial
    (λ t (s : list Z),
       Z.of_nat (length s) = n
       ∧ ∀ e, 0 ≤ e < t → e < n →
           ∃ u v c, rd src e = Ok u ∧ rd dst e = Ok v
                    ∧ count_edge rp ci u v = Ok c ∧ s !! Z.to_nat e = Some c)
    (blocks * threads) _ s0 s ltac:(lia) Hrun).
  destruct Hinv as [Hl Hcells].
  - split; [done|]. intros; lia.
  - intros j t t' Hj [Hl Hcells] Hb. unfold countTriangles in Hb.
    case_bool_decide as Hjn.
    + injection Hb as <-. split; [done|]. intros e He Hen.
      apply Hcells; lia.
    + inv_run. rewrite length_insert. split; [done|]. intros e He Hen.
      destruct (decide (e = j)) as [->|Hne].
      * do 3 eexists. rewrite list_lookup_insert_eq by lia.
        repeat split; [apply rd_Ok; eauto..|done].
      * destruct (Hcells e) as (u & v & c & ? & ? & ? & ?); [lia..|].
        exists u, v, c. rewrite list_lookup_insert_ne by lia. done.
  - split; [done|]. intros e He. apply Hcells; lia.
Qed.

Lemma launch_total rp ci src dst n blocks threads (s0 : list Z) :
  0 ≤ blocks * threads → Z.of_nat (length s0) = n →
  (∀ e, 0 ≤ e < n →
     ∃ u v c, rd src e = Ok u ∧ rd dst e = Ok v
              ∧ count_edge rp ci u v = Ok c) →
  ∃ s, launch_countTriangles blocks threads rp ci src dst n s0 = Ok s.
Proof.
  intros HB Hlen Hok. unfold launch_countTriangles.
  destruct (for_loop_total (λ _ (s : list Z), Z.of_nat (length s) = n)
              (blocks * threads) (countTriangles rp ci src dst n) s0)
    as (s & Hs & _);
    [done..| |by eauto].
  intros j t Hj Hl. unfold countTriangles. case_bool_decide as Hjn.
  - by eexists.
  - destruct (Hok j) as (u & v & c & -> & -> & Hc); [lia|]. simpl.
    rewrite Hc. simpl. unfold wr. rewrite decide_True by lia.
    eexists. split; [done|]. by rewrite length_insert.
Qed.


(** ** The run always ends *)

(** [OutOfFuel] is never the outcome: the only unbounded loop of the
    source, the [while] of the kernel, stays within its budget. *)

Lemma bind_fuel {A B} (r : result A) (f : A → result B) :
  r ≠ OutOfFuel → (∀ a, f a ≠ OutOfFuel) → r ≫= f ≠ OutOfFuel.
Proof. intros Hr Hf. destruct r; simpl; [apply Hf|done..]. Qed.

Lemma wr_fuel {A} (a : list A) i x : wr a i x ≠ OutOfFuel.
Proof. unfold wr. by case_decide. Qed.

Lemma memcpy_fuel {A} (a : list A) n : memcpy a n ≠ OutOfFuel.
Proof. unfold memcpy. by case_decide. Qed.

Lemma new_vector_fuel n : new_vector n ≠ OutOfFuel.
Proof. unfold new_vector. by case_decide. Qed.

Lemma for_from_fuel {St} (body : Z → St → result St) todo :
  (∀ i s, body i s ≠ OutOfFuel) →
  ∀ i s, for_from body i todo s ≠ OutOfFuel.
Proof.
  intros Hbody. induction todo as [|todo IH]; intros i s; simpl; [done|].
  apply bind_fuel; [apply Hbody|]. intros s'. apply IH.
Qed.

Lemma for_loop_fuel {St} n (body : Z → St → result St) s :
  (∀ i s, body i s ≠ OutOfFuel) → for_loop n body s ≠ OutOfFuel.
Proof. intros Hbody. by apply for_from_fuel. Qed.

Create HintDb fuel.

#[local] Hint Resolve rd_fuel wr_fuel memcpy_fuel new_vector_fuel
  count_edge_fuel : fuel.

Ltac solve_fuel :=
  repeat first
    [ progress eauto with fuel
    | apply bind_fuel; [|intros ?]
    | apply for_loop_fuel; intros ? ?
    | case_bool_decide
    | done ].

Lemma populate_fuel g : populate g ≠ OutOfFuel.
Proof. unfold populate, populate_body. solve_fuel. Qed.

Lemma compute_support_fuel g src dst : compute_support g src dst ≠ OutOfFuel.
Proof.
  unfold compute_support, launch_countTriangles, countTriangles. solve_fuel.
Qed.

Lemma prune_pass_fuel k n support : prune_pass k n support ≠ OutOfFuel.
Proof. unfold prune_pass, prune_body. solve_fuel. Qed.

Lemma prune_fuel k n support : prune k n support ≠ OutOfFuel.
Proof.
  unfold prune. generalize 0%nat. revert support.
  induction (Z.to_nat n) as [|todo IH]; intros support iter; simpl; [done|].
  apply bind_fuel; [apply prune_pass_fuel|]. intros [support' []]; [|done].
  apply IH.
Qed.

Lemma remaining_fuel k n src dst support :
  remaining k n src dst support ≠ OutOfFuel.
Proof. unfold remaining, remaining_body. solve_fuel. Qed.

Lemma kTruss_fuel g k : kTruss g k ≠ OutOfFuel.
Proof.
  unfold kTruss.
  apply bind_fuel; [apply populate_fuel|]. intros [src dst].
  apply bind_fuel; [apply compute_support_fuel|]. intros support.
  apply bind_fuel; [apply prune_fuel|]. intros p.
  apply remaining_fuel.
Qed.

(** ** The support vector before pruning *)

Lemma grid_covers n : 0 ≤ n → n ≤ (n + 256 - 1) `quot` 256 * 256.
Proof.
  intros Hn. rewrite Z.quot_div_nonneg by lia.
  pose proof (Z.div_mod (n + 256 - 1) 256 ltac:(lia)).
  pose proof (Z.mod_pos_bound (n + 256 - 1) 256 ltac:(lia)). lia.
Qed.

Lemma compute_support_length g src dst support :
  compute_support g src dst = Ok support →
  Z.of_nat (length support) = numEdges g.
Proof.
  unfold compute_support. intros H. inv_run. subst.
  rewrite length_take. lia.
Qed.

Lemma initial_support_partial g support :
  initial_support g = Ok support →
  0 ≤ numEdges g ≤ Z.of_nat (length (edges g))
  ∧ Z.of_nat (length support) = numEdges g
  ∧ ∀ e u v, edge_list g !! e = Some (u, v) →
      ∃ c, count_edge (dev_rowPtr g) (dev_colIdx g) u v = Ok c
           ∧ support !! e = Some c.
Proof.
  unfold initial_support. intros H.
  apply bind_Ok in H as ([src dst] & Hpop & H).
  apply populate_Ok in Hpop as [Hn [= -> ->]].
  split; [done|]. split; [by apply compute_support_length in H|].
  intros e u v He. unfold compute_support in H. inv_run. subst.
  match goal with H : launch_countTriangles _ _ _ _ _ _ _ _ = Ok _ |- _ =>
    apply launch_partial in H as [Hl Hcells] end.
  2:{ split; [lia|]. by apply grid_covers. }
  2:{ rewrite length_replicate. lia. }
  pose proof (lookup_lt_Some _ _ _ He) as Hlt.
  pose proof (length_edge_list g Hn).
  destruct (Hcells (Z.of_nat e)) as (u' & v' & c & Hu & Hv & Hc & Hs); [lia|].
  apply rd_Ok in Hu as [_ Hu]. apply rd_Ok in Hv as [_ Hv].
  rewrite Nat2Z.id in *.
  rewrite lookup_take_lt, list_lookup_fmap, He in Hu by lia.
  rewrite lookup_take_lt, list_lookup_fmap, He in Hv by lia.
  simpl in *. simplify_eq.
  exists c. split.
  - unfold dev_rowPtr, dev_colIdx.
    match goal with H : rowPtr g !! _ = Some _ |- _ =>
      rewrite (list_lookup_total_correct _ _ _ H) end. done.
  - rewrite lookup_take_lt by lia. done.
Qed.

Lemma initial_support_total g nnz :
  0 ≤ numEdges g ≤ Z.of_nat (length (edges g)) →
  rd (rowPtr g) (numNodes g) = Ok nnz →
  0 ≤ nnz ≤ Z.of_nat (length (colIdx g)) →
  (∀ e u v, edge_list g !! e = Some (u, v) →
     ∃ c, count_edge (dev_rowPtr g) (dev_colIdx g) u v = Ok c) →
  ∃ support, initial_support g = Ok support.
Proof.
  intros Hn Hnnz Hci Hedges.
  pose proof (length_edge_list g Hn) as Hel.
  unfold initial_support. rewrite populate_total by done. simpl.
  unfold compute_support. rewrite Hnnz. simpl.
  apply rd_Ok in Hnnz as [Hnn Hnnz].
  pose proof (lookup_lt_Some _ _ _ Hnnz).
  rewrite (memcpy_total (rowPtr g)) by lia. simpl.
  rewrite (memcpy_total (colIdx g)) by lia. simpl.
  rewrite (memcpy_total (edge_list g).*1) by (rewrite length_fmap; lia). simpl.
  rewrite (memcpy_total (edge_list g).*2) by (rewrite length_fmap; lia). simpl.
  rewrite new_vector_total by lia. simpl.
  pose proof (grid_covers (numEdges g) ltac:(lia)) as Hgrid.
  edestruct launch_total as (s & Hs);
    [| |intros e He|rewrite Hs; simpl].
  - lia.
  - rewrite length_replicate. lia.
  - destruct (lookup_lt_is_Some_2 (edge_list g) (Z.to_nat e)) as [[u v] Huv];
      [lia|].
    destruct (Hedges _ _ _ Huv) as [c Hc]. exists u, v, c.
    split_and!.
    + apply rd_Ok. split; [lia|].
      rewrite lookup_take_lt, list_lookup_fmap, Huv by lia. done.
    + apply rd_Ok. split; [lia|].
      rewrite lookup_take_lt, list_lookup_fmap, Huv by lia. done.
    + unfold dev_rowPtr, dev_colIdx in Hc.
      rewrite (list_lookup_total_correct _ _ _ Hnnz) in Hc. exact Hc.
  - apply launch_partial in Hs as [Hl _];
      [|lia|rewrite length_replicate; lia].
    rewrite memcpy_total by lia. by eexists.
Qed.

(** [kTruss] in closed form, for every graph on which the run is defined. *)
Lemma kTruss_spec g k support :
  initial_support g = Ok support →
  kTruss g k
  = Ok (filter (kept k) (all_reports (edge_list g) (mark k <$> support))).
Proof.
  unfold initial_support, kTruss. intros H.
  apply bind_Ok in H as ([src dst] & Hpop & H). rewrite Hpop. simpl.
  apply populate_Ok in Hpop as [Hn [= -> ->]].
  rewrite H. simpl. apply compute_support_length in H.
  rewrite prune_spec by done. simpl.
  apply remaining_spec.
  - by apply length_edge_list.
  - by rewrite length_fmap.
Qed.


(** ** The two-pointer walk on sorted rows *)

Lemma slice_nil a i e : e ≤ i → slice a i e = [].
Proof. intros H. unfold slice. by replace (Z.to_nat (e - i)) with 0%nat by lia. Qed.

Lemma slice_cons a i e x :
  0 ≤ i < e → a !! Z.to_nat i = Some x →
  slice a i e = x :: slice a (i + 1) e.
Proof.
  intros Hi Hx. unfold slice.
  replace (Z.to_nat (e - i)) with (S (Z.to_nat (e - (i + 1)))) by lia.
  rewrite (drop_S _ _ _ Hx). simpl.
  by replace (Z.to_nat (i + 1)) with (S (Z.to_nat i)) by lia.
Qed.

Lemma filter_ext_elem (P Q : Z → Prop)
    `{!∀ x, Decision (P x), !∀ x, Decision (Q x)} (l : list Z) :
  (∀ x, x ∈ l → P x ↔ Q x) → filter P l = filter Q l.
Proof.
  induction l as [|a l IH]; intros Hext; [done|].
  rewrite !filter_cons, IH by (intros x Hx; apply Hext; by right).
  destruct (decide (P a)) as [Ha|Ha].
  - rewrite decide_True; [done|]. apply Hext; [by left|done].
  - rewrite decide_False; [done|]. intros Hq. apply Ha, Hext; [by left|done].
Qed.

Section merge_common.
Context (u v : Z).

Lemma merge_common_nil_r la : merge_common u v la [] = [].
Proof.
  unfold merge_common. induction la as [|a la IH]; [done|].
  rewrite filter_cons_False; [done|]. rewrite elem_of_nil. tauto.
Qed.

Lemma merge_common_skip_v la lb :
  merge_common u v (v :: la) lb = merge_common u v la lb.
Proof. unfold merge_common. rewrite filter_cons_False; [done|tauto]. Qed.

Lemma merge_common_skip_u la lb :
  merge_common u v la (u :: lb) = merge_common u v la lb.
Proof.
  unfold merge_common. apply list_filter_iff. intros w.
  rewrite elem_of_cons. tauto.
Qed.

Lemma merge_common_match a la lb :
  a ≠ v → a ≠ u → Forall (Z.lt a) la →
  merge_common u v (a :: la) (a :: lb) = a :: merge_common u v la lb.
Proof.
  intros Hv Hu Hla. unfold merge_common.
  rewrite filter_cons_True by (rewrite elem_of_cons; tauto).
  f_equal. apply filter_ext_elem. intros w Hw.
  rewrite Forall_forall in Hla. specialize (Hla w Hw).
  assert (w ≠ a) by lia. rewrite elem_of_cons. tauto.
Qed.

Lemma merge_common_less a b la lb :
  a < b → Forall (Z.lt b) lb →
  merge_common u v (a :: la) (b :: lb) = merge_common u v la (b :: lb).
Proof.
  intros Hab Hlb. unfold merge_common.
  rewrite filter_cons_False; [done|]. intros (_ & _ & Hin).
  apply elem_of_cons in Hin as [->|Hin]; [lia|].
  rewrite Forall_forall in Hlb. specialize (Hlb a Hin). lia.
Qed.

Lemma merge_common_greater a b la lb :
  b < a → Forall (Z.lt a) la →
  merge_common u v (a :: la) (b :: lb) = merge_common u v (a :: la) lb.
Proof.
  intros Hab Hla. unfold merge_common. apply filter_ext_elem. intros w Hw.
  assert (b < w).
  { apply elem_of_cons in Hw as [->|Hw]; [done|].
    rewrite Forall_forall in Hla. specialize (Hla w Hw). lia. }
  assert (w ≠ b) by lia. rewrite elem_of_cons. tauto.
Qed.
End merge_common.

(** The loop of lines 27-41 on two strictly ascending rows. *)
Lemma merge_loop_spec ci u v uEnd vEnd fuel :
  ∀ i j count,
    0 ≤ i → 0 ≤ j →
    uEnd ≤ Z.of_nat (length ci) → vEnd ≤ Z.of_nat (length ci) →
    (Z.to_nat (uEnd - i) + Z.to_nat (vEnd - j) ≤ fuel)%nat →
    StronglySorted Z.lt (slice ci i uEnd) →
    StronglySorted Z.lt (slice ci j vEnd) →
    merge_loop fuel ci u v uEnd vEnd i j count
    = Ok (count + Z.of_nat (length
            (merge_common u v (slice ci i uEnd) (slice ci j vEnd)))).
Proof.
  induction fuel as [|fuel IH]; intros i j count Hi Hj Hu Hv Hfuel Sa Sb.
  - simpl. rewrite bool_decide_eq_false_2 by lia.
    rewrite (slice_nil ci i uEnd) by lia. simpl. f_equal. lia.
  - simpl. case_bool_decide as Hij.
    2:{ f_equal. destruct (decide (i < uEnd)).
        - rewrite (slice_nil ci j vEnd), merge_common_nil_r by lia. simpl. lia.
        - rewrite (slice_nil ci i uEnd) by lia. simpl. lia. }
    destruct Hij as [Hiu Hjv].
    destruct (lookup_lt_is_Some_2 ci (Z.to_nat i)) as [a Ha]; [lia|].
    destruct (lookup_lt_is_Some_2 ci (Z.to_nat j)) as [b Hb]; [lia|].
    assert (rd ci i = Ok a) as -> by (by apply rd_Ok).
    assert (rd ci j = Ok b) as -> by (by apply rd_Ok). simpl.
    rewrite (slice_cons ci i uEnd a) in Sa |- * by (done || lia).
    rewrite (slice_cons ci j vEnd b) in Sb |- * by (done || lia).
    apply StronglySorted_cons in Sa as [Ha_lt Sa'].
    apply StronglySorted_cons in Sb as [Hb_lt Sb'].
    case_bool_decide as Hav.
    { subst a. rewrite IH; try (done || lia).
      - by rewrite merge_common_skip_v, <-(slice_cons ci j vEnd b).
      - rewrite (slice_cons ci j vEnd b) by (done || lia).
        by apply StronglySorted_cons. }
    case_bool_decide as Hbu.
    { subst b. rewrite IH; try (done || lia).
      - by rewrite merge_common_skip_u, <-(slice_cons ci i uEnd a).
      - rewrite (slice_cons ci i uEnd a) by (done || lia).
        by apply StronglySorted_cons. }
    case_bool_decide as Hab.
    { subst b. rewrite IH; try (done || lia).
      rewrite merge_common_match by done. simpl. f_equal. lia. }
    case_bool_decide as Hlt.
    { rewrite IH; try (done || lia).
      - by rewrite merge_common_less, <-(slice_cons ci j vEnd b).
      - rewrite (slice_cons ci j vEnd b) by (done || lia).
        by apply StronglySorted_cons. }
    rewrite IH; try (done || lia).
    + by rewrite merge_common_greater, <-(slice_cons ci i uEnd a)
        by (done || lia).
    + rewrite (slice_cons ci i uEnd a) by (done || lia).
      by apply StronglySorted_cons.
Qed.


(** ** Well-formed graphs *)

Lemma sorted_lookup_le (l : list Z) i j a b :
  StronglySorted Z.le l → (i ≤ j)%nat →
  l !! i = Some a → l !! j = Some b → a ≤ b.
Proof.
  intros Hl Hij Ha Hb. destruct (decide (i = j)) as [->|Hne].
  - rewrite Ha in Hb. injection Hb as ->. lia.
  - rewrite <-(take_drop j l) in Hl.
    apply (StronglySorted_app_1_elem_of _ _ _ a b) in Hl; [done|..].
    + apply list_elem_of_lookup. exists i. rewrite lookup_take_lt by lia. done.
    + apply list_elem_of_lookup. exists 0%nat.
      by rewrite lookup_drop, Nat.add_0_r.
Qed.

Section valid_graph.
Context (g : Graph) (Hvalid : valid_graph g).

Lemma valid_numEdges : numEdges g = Z.of_nat (length (edges g)).
Proof. by destruct Hvalid. Qed.

Lemma valid_edge_list : edge_list g = edges g.
Proof. unfold edge_list. rewrite valid_numEdges. apply take_ge. lia. Qed.

Lemma valid_endpoints u v :
  (u, v) ∈ edges g → 0 ≤ u < numNodes g ∧ 0 ≤ v < numNodes g ∧ u ≠ v.
Proof.
  destruct Hvalid as (_ & (Hends & _) & _). rewrite Forall_forall in Hends.
  intros Huv. apply (Hends _ Huv).
Qed.

Lemma valid_adjacent u w :
  adjacent (edges g) u w → 0 ≤ u < numNodes g ∧ 0 ≤ w < numNodes g ∧ u ≠ w.
Proof. intros [H|H]; apply valid_endpoints in H; lia. Qed.

Lemma valid_last : rowPtr g !! Z.to_nat (numNodes g)
                   = Some (Z.of_nat (length (colIdx g))).
Proof.
  destruct Hvalid as (_ & _ & (Hn & Hlen & _ & _ & Hlast) & _).
  rewrite last_lookup in Hlast.
  by replace (Z.to_nat (numNodes g)) with (pred (length (rowPtr g))) by lia.
Qed.

Lemma valid_dev_rowPtr : dev_rowPtr g = rowPtr g.
Proof.
  destruct Hvalid as (_ & _ & (Hn & Hlen & _) & _).
  unfold dev_rowPtr. apply take_ge. lia.
Qed.

Lemma valid_dev_colIdx : dev_colIdx g = colIdx g.
Proof.
  unfold dev_colIdx. rewrite (list_lookup_total_correct _ _ _ valid_last).
  apply take_ge. lia.
Qed.

(** Every row is a readable window of [colIdx]. *)
Lemma valid_row u :
  0 ≤ u < numNodes g →
  ∃ s e,
    rd (rowPtr g) u = Ok s ∧ rd (rowPtr g) (u + 1) = Ok e
    ∧ 0 ≤ s ≤ e ∧ e ≤ Z.of_nat (length (colIdx g))
    ∧ neighbours g u = slice (colIdx g) s e.
Proof.
  intros Hu. pose proof valid_last as Hlast.
  destruct Hvalid as (_ & _ & (Hn & Hlen & H0 & Hsorted & _) & _).
  apply Sorted_StronglySorted in Hsorted; [|apply _].
  destruct (lookup_lt_is_Some_2 (rowPtr g) (Z.to_nat u)) as [s Hs]; [lia|].
  destruct (lookup_lt_is_Some_2 (rowPtr g) (Z.to_nat (u + 1))) as [e He];
    [lia|].
  exists s, e. split_and!.
  - apply rd_Ok. split; [lia|done].
  - apply rd_Ok. split; [lia|done].
  - eapply (sorted_lookup_le _ _ _ _ _ Hsorted); [|exact H0|exact Hs]. lia.
  - eapply (sorted_lookup_le _ _ _ _ _ Hsorted); [|exact Hs|exact He]. lia.
  - eapply (sorted_lookup_le _ _ _ _ _ Hsorted); [|exact He|exact Hlast].
    lia.
  - unfold neighbours, row.
    by rewrite (list_lookup_total_correct _ _ _ Hs),
               (list_lookup_total_correct _ _ _ He).
Qed.

Lemma valid_row_sorted u :
  0 ≤ u < numNodes g → StronglySorted Z.lt (neighbours g u).
Proof.
  intros Hu. destruct Hvalid as (_ & _ & _ & Hrows).
  unfold csr_rows in Hrows. rewrite Forall_forall in Hrows.
  destruct (Hrows u) as (Hs & _); [apply elem_of_seqZ; lia|].
  apply Sorted_StronglySorted; [apply _|done].
Qed.

Lemma valid_row_adjacent u w :
  0 ≤ u < numNodes g → w ∈ neighbours g u ↔ adjacent (edges g) u w.
Proof.
  intros Hu. destruct Hvalid as (_ & _ & _ & Hrows).
  unfold csr_rows in Hrows. rewrite Forall_forall in Hrows.
  destruct (Hrows u) as (_ & Hin & Hout); [apply elem_of_seqZ; lia|].
  rewrite Forall_forall in Hin, Hout. split; [apply Hin|].
  intros Hadj. apply Hout; [|done].
  apply valid_adjacent in Hadj. apply elem_of_seqZ. lia.
Qed.

(** On a well-formed graph the two skips of lines 30-31 drop nothing
    that the intersection would keep: [u] is not in its own row, nor [v]
    in its own. *)
Lemma merge_common_valid u v :
  0 ≤ u < numNodes g → 0 ≤ v < numNodes g →
  merge_common u v (neighbours g u) (neighbours g v)
  = list_intersection (neighbours g u) (neighbours g v).
Proof.
  intros Hu Hv. unfold merge_common.
  transitivity (filter (λ w, w ∈ neighbours g v) (neighbours g u)).
  - apply filter_ext_elem. intros w Hw. split; [tauto|]. intros Hwv.
    pose proof Hwv as Hwv'.
    apply valid_row_adjacent, valid_adjacent in Hw; [|done].
    apply valid_row_adjacent, valid_adjacent in Hwv'; [|done].
    split_and!; [lia|lia|done].
  - generalize (neighbours g u). intros l.
    induction l as [|a l IH]; [done|]. simpl. rewrite filter_cons, IH.
    unfold decide_rel. repeat case_match; done.
Qed.

(** The kernel on a well-formed graph. *)
Lemma count_edge_valid u v :
  0 ≤ u < numNodes g → 0 ≤ v < numNodes g →
  count_edge (rowPtr g) (colIdx g) u v
  = Ok (Z.of_nat (length
          (merge_common u v (neighbours g u) (neighbours g v)))).
Proof.
  intros Hu Hv.
  pose proof (valid_row_sorted u Hu) as Su.
  pose proof (valid_row_sorted v Hv) as Sv.
  destruct (valid_row u Hu) as (us & ue & Hus & Hue & Hu1 & Hu2 & Hrow_u).
  destruct (valid_row v Hv) as (vs & ve & Hvs & Hve & Hv1 & Hv2 & Hrow_v).
  unfold count_edge. rewrite Hus, Hue, Hvs, Hve. simpl.
  rewrite Hrow_u in Su. rewrite Hrow_v in Sv.
  rewrite merge_loop_spec by (done || lia).
  by rewrite <-Hrow_u, <-Hrow_v, Z.add_0_l.
Qed.

(** The intersection of two rows lists the common neighbours. *)
Lemma intersection_common_neighbours u v :
  0 ≤ u < numNodes g → 0 ≤ v < numNodes g →
  list_intersection (neighbours g u) (neighbours g v)
  ≡ₚ common_neighbours (numNodes g) (edges g) u v.
Proof.
  intros Hu Hv. apply NoDup_Permutation.
  - apply NoDup_list_intersection.
    pose proof (valid_row_sorted u Hu) as Su.
    generalize dependent (neighbours g u). intros l Sl.
    induction Sl as [|a l Sl IH Ha]; constructor; [|done].
    intros Hin. rewrite Forall_forall in Ha. specialize (Ha a Hin). lia.
  - apply NoDup_filter, NoDup_seqZ.
  - intros w. rewrite list_elem_of_intersection. unfold common_neighbours.
    rewrite list_elem_of_filter, elem_of_seqZ, !valid_row_adjacent by done.
    split; [|tauto]. intros [Huw Hvw]. split; [done|].
    apply valid_adjacent in Huw. lia.
Qed.

(** The support vector of a well-formed graph. *)
Lemma initial_support_valid :
  ∃ support,
    initial_support g = Ok support
    ∧ ∀ e u v, edges g !! e = Some (u, v) →
        support !! e
        = Some (Z.of_nat (length
                 (list_intersection (neighbours g u) (neighbours g v)))).
Proof.
  pose proof valid_numEdges as Hne.
  assert (Hcount : ∀ e u v, edge_list g !! e = Some (u, v) →
    count_edge (dev_rowPtr g) (dev_colIdx g) u v
    = Ok (Z.of_nat (length
            (list_intersection (neighbours g u) (neighbours g v))))).
  { intros e u v He. rewrite valid_edge_list in He.
    apply list_elem_of_lookup_2, valid_endpoints in He.
    rewrite valid_dev_rowPtr, valid_dev_colIdx.
    rewrite count_edge_valid, merge_common_valid by lia. done. }
  destruct (initial_support_total g (Z.of_nat (length (colIdx g))))
    as [support Hsup].
  - lia.
  - apply rd_Ok. split; [|apply valid_last].
    destruct Hvalid as (_ & _ & (Hn & _) & _). lia.
  - lia.
  - intros e u v He. eexists. by apply (Hcount e).
  - exists support. split; [done|]. intros e u v He.
    apply initial_support_partial in Hsup as (_ & _ & Hcells).
    rewrite <-valid_edge_list in He.
    destruct (Hcells _ _ _ He) as (c & Hc & ->).
    rewrite (Hcount _ _ _ He) in Hc. congruence.
Qed.
End valid_graph.

(** ** The threshold on [int] *)

(** Where [k - 2] does not overflow, the machine subtraction is the
    exact one. *)
Lemma int_sub_exact k :
  threshold_defined k → k ≤ int_max → int_sub k 2 = k - 2.
Proof.
  unfold threshold_defined, int_sub, int_min, int_max. intros Hlo Hhi.
  rewrite Z.mod_small by lia. lia.
Qed.

Lemma threshold_defined_from_2 k : 2 ≤ k → threshold_defined k.
Proof. unfold threshold_defined, int_min. lia. Qed.

(** For an [int] [k], the threshold the machine computes is at most [0]
    exactly when [k ≤ 2] and the subtraction does not overflow. *)
Lemma threshold_nonpositive k :
  int_min ≤ k ≤ int_max →
  int_sub k 2 ≤ 0 ↔ threshold_defined k ∧ k ≤ 2.
Proof.
  intros Hk. destruct (decide (threshold_defined k)) as [Hd|Hd].
  - rewrite int_sub_exact by (done || lia). split; [|lia]. by split; [|lia].
  - split; [|tauto]. intros Hle. exfalso.
    unfold threshold_defined, int_min, int_max in *.
    assert (k = -2147483648 ∨ k = -2147483647) as [->| ->] by lia;
      vm_compute in Hle; by apply Hle.
Qed.

(** ** Sanity checks on the example graphs *)

Ltac by_computation := apply (bool_decide_unpack _); vm_compute; exact I.

Lemma diamond_valid : valid_graph diamond.
Proof. by_computation. Qed.

Lemma diamond_core_valid : valid_graph diamond_core.
Proof. by_computation. Qed.

Lemma single_edge_valid : valid_graph single_edge.
Proof. by_computation. Qed.

Lemma path3_valid : valid_graph path3.
Proof. by_computation. Qed.

Lemma main_graph_invalid : ¬ valid_graph main_graph.
Proof. apply (bool_decide_eq_false_1 _). vm_compute. reflexivity. Qed.

Example main_graph_run :
  initial_support main_graph = Ok [1; 1; 1; 0; 0]
  ∧ kTruss main_graph 3
    = Ok [mkReport 0 0 1 1; mkReport 1 0 2 1; mkReport 2 1 2 1].
Proof. split; vm_compute; reflexivity. Qed.

Example diamond_support : initial_support diamond = Ok [1; 1; 2; 1; 1].
Proof. vm_compute. reflexivity. Qed.

Example diamond_3truss :
  kTruss diamond 3 = Ok (all_reports (edges diamond) [1; 1; 2; 1; 1]).
Proof. vm_compute. reflexivity. Qed.

Example path3_3truss : kTruss path3 3 = Ok [].
Proof. vm_compute. reflexivity. Qed.

(** Outside the range of [threshold_defined]: for [k = INT_MIN] the
    machine subtraction gives [INT_MAX - 1], and with that threshold
    every edge of the diamond is marked and nothing is reported. *)
Example wrapped_threshold_run :
  ¬ threshold_defined int_min
  ∧ int_sub int_min 2 = int_max - 1
  ∧ kTruss diamond (int_sub int_min 2 + 2) = Ok [].
Proof.
  split; [unfold threshold_defined, int_min; lia|].
  split; vm_compute; reflexivity.
Qed.

(** ** Consequences for the pruning loop *)

Lemma initial_support_nonneg g support :
  initial_support g = Ok support → Forall (λ s, 0 ≤ s) support.
Proof.
  intros (Hn & Hlen & Hcells)%initial_support_partial.
  apply Forall_lookup_2. intros e s Hs.
  pose proof (lookup_lt_Some _ _ _ Hs) as Hlt.
  pose proof (length_edge_list g Hn) as Hel.
  destruct (lookup_lt_is_Some_2 (edge_list g) e) as [[u v] Huv]; [lia|].
  destruct (Hcells _ _ _ Huv) as (c & Hc%count_edge_nonneg & Hs').
  congruence.
Qed.

Lemma filter_kept_all k es (support : list Z) i :
  Forall (λ s, k - 2 ≤ s) support →
  filter (kept k) (reports_from i es support) = reports_from i es support.
Proof.
  revert i support. induction es as [|e es IH]; intros i [|s support] H;
    try done.
  apply Forall_cons in H as [Hs H]. simpl.
  rewrite filter_cons_True by (unfold kept; simpl; lia).
  by rewrite IH.
Qed.

Lemma not_below_nonneg k (support : list Z) :
  k ≤ 2 → ¬ Exists (below k) support.
Proof.
  intros Hk. rewrite <-Forall_Exists_neg. apply Forall_true.
  intros s. unfold below. lia.
Qed.

Lemma mark_cell k s : mark k s = s ∨ (mark k s = -1 ∧ below k s).
Proof.
  unfold mark. case_bool_decide; [right|left]; done.
Qed.

Lemma alive_count_mark_le k (l : list Z) :
  (alive_count (mark k <$> l) ≤ alive_count l)%nat.
Proof.
  unfold alive_count. induction l as [|s l IH]; [done|]. csimpl.
  rewrite !filter_cons. destruct (mark_cell k s) as [->|[-> Hb]].
  - case_decide; simpl; lia.
  - rewrite decide_False by lia. case_decide; simpl; lia.
Qed.

Lemma alive_count_mark_lt k (l : list Z) :
  Exists (below k) l → (alive_count (mark k <$> l) < alive_count l)%nat.
Proof.
  unfold alive_count. induction 1 as [s l Hb|s l Hex IH]; csimpl;
    rewrite !filter_cons.
  - pose proof (alive_count_mark_le k l) as Hle. unfold alive_count in Hle.
    assert (mark k s = -1) as ->
      by (unfold mark; by rewrite (bool_decide_eq_true_2 _ Hb)).
    rewrite decide_False by lia.
    rewrite decide_True by (unfold below in Hb; lia). simpl. lia.
  - destruct (mark_cell k s) as [->|[-> Hb]].
    + case_decide; simpl; lia.
    + rewrite decide_False by lia. case_decide; simpl; lia.
Qed.

Lemma mark_fmap_le k (l : list Z) : Forall2 (λ s s', s' ≤ s) l (mark k <$> l).
Proof.
  induction l as [|s l IH]; csimpl; constructor; [|done].
  destruct (mark_cell k s) as [->|[-> Hb]]; [lia|]. unfold below in Hb. lia.
Qed.

(** The report in closed form, without the marker. *)
Lemma kTruss_closed g k support :
  initial_support g = Ok support →
  kTruss g k = Ok (filter (kept k) (all_reports (edge_list g) support)).
Proof.
  intros Hsup. rewrite (kTruss_spec g k support Hsup). unfold all_reports.
  by rewrite filter_kept_mark.
Qed.

(** On a well-formed graph the run comes back. *)
Lemma kTruss_valid g k :
  valid_graph g →
  ∃ support,
    initial_support g = Ok support
    ∧ kTruss g k = Ok (filter (kept k) (all_reports (edges g) support)).
Proof.
  intros Hvalid.
  destruct (initial_support_valid g Hvalid) as (support & Hsup & _).
  exists support. split; [done|].
  by rewrite (kTruss_closed g k support Hsup), valid_edge_list.
Qed.

Lemma length_filter_impl (P Q : Z → Prop)
    `{!∀ x, Decision (P x), !∀ x, Decision (Q x)} (l : list Z) :
  (∀ x, P x → Q x) → (length (filter P l) ≤ length (filter Q l))%nat.
Proof.
  intros Himpl. induction l as [|a l IH]; [done|]. rewrite !filter_cons.
  destruct (decide (P a)) as [Ha|Ha].
  - rewrite decide_True by auto. simpl. lia.
  - case_decide; simpl; lia.
Qed.

(** The half of the support invariant that the code does keep: an edge
    is only ever marked when it lies in fewer than [k - 2] triangles of
    the edges alive at that time (any subset of the original edges). *)
Lemma removed_edge_was_below g k support p e u v alive :
  valid_graph g →
  initial_support g = Ok support →
  prune k (numEdges g) support = Ok p →
  edges g !! e = Some (u, v) →
  final p !! e = Some (-1) →
  alive ⊆ edges g →
  triangle_support (numNodes g) alive (u, v) < k - 2.
Proof.
  intros Hvalid Hsup Hprune He Hfinal Halive.
  pose proof (initial_support_nonneg g support Hsup) as Hnn.
  destruct (initial_support_valid g Hvalid) as (support' & Hsup' & Hcells).
  rewrite Hsup in Hsup'. injection Hsup' as <-.
  specialize (Hcells e u v He).
  apply initial_support_partial in Hsup as (_ & Hlen & _).
  rewrite prune_spec in Hprune by done. injection Hprune as <-.
  simpl in Hfinal. rewrite list_lookup_fmap, Hcells in Hfinal.
  simpl in Hfinal. injection Hfinal as Hmark.
  destruct (mark_cell k
    (Z.of_nat (length (list_intersection (neighbours g u) (neighbours g v)))))
    as [Heq|[_ Hb]]; [lia|].
  pose proof (list_elem_of_lookup_2 _ _ _ He) as Hin.
  apply (valid_endpoints g Hvalid) in Hin as (Hu & Hv & _).
  rewrite (Permutation_length
             (intersection_common_neighbours g Hvalid u v Hu Hv)) in Hb.
  unfold below in Hb. unfold triangle_support, common_neighbours in *. simpl.
  assert (length (filter (λ w, adjacent alive u w ∧ adjacent alive v w)
                    (seqZ 0 (numNodes g)))
          ≤ length (filter (λ w, adjacent (edges g) u w
                                ∧ adjacent (edges g) v w)
                      (seqZ 0 (numNodes g))))%nat; [|lia].
  apply length_filter_impl. unfold adjacent. intros w [[?|?] [?|?]];
    split; auto.
Qed.

(** ** Statements about the code *)

(** C4: on every well-formed simple undirected graph the run of
    lines 47-89 comes back, and for every edge [{u,v}] the two-pointer
    walk of [countTriangles], which skips [v] in the row of [u] and [u]
    in the row of [v], returns the size of the intersection of the two
    sorted rows; that value is what [support] holds for the edge, and it
    is the number of nodes [w] with both [{u,w}] and [{v,w}] in the edge
    list. *)
Theorem initial_support_counts_common_neighbours g :
  valid_graph g →
  ∃ support,
    initial_support g = Ok support
    ∧ ∀ e u v, edges g !! e = Some (u, v) →
        let common := list_intersection (neighbours g u) (neighbours g v) in
        count_edge (rowPtr g) (colIdx g) u v = Ok (Z.of_nat (length common))
        ∧ merge_common u v (neighbours g u) (neighbours g v) = common
        ∧ support !! e = Some (Z.of_nat (length common))
        ∧ length common
          = length (common_neighbours (numNodes g) (edges g) u v)
        ∧ ∀ w, w ∈ common_neighbours (numNodes g) (edges g) u v
               ↔ adjacent (edges g) u w ∧ adjacent (edges g) v w.
Proof.
  intros Hvalid.
  destruct (initial_support_valid g Hvalid) as (support & Hsup & Hcells).
  exists support. split; [done|]. intros e u v He common.
  pose proof (list_elem_of_lookup_2 _ _ _ He) as Hin.
  apply (valid_endpoints g Hvalid) in Hin as (Hu & Hv & _).
  split_and!.
  - rewrite count_edge_valid, merge_common_valid by done. done.
  - by apply merge_common_valid.
  - by apply (Hcells e).
  - by apply Permutation_length, intersection_common_neighbours.
  - intros w. unfold common_neighbours.
    rewrite list_elem_of_filter, elem_of_seqZ. split; [tauto|].
    intros [Huw Hvw]. split; [done|].
    apply (valid_adjacent g Hvalid) in Huw. lia.
Qed.

Lemma initial_support_counts_common_neighbours_witness :
  valid_graph diamond
  ∧ ∃ support,
      initial_support diamond = Ok support ∧ support !! 2%nat = Some 2.
Proof.
  split; [by_computation|].
  destruct (initial_support_counts_common_neighbours diamond)
    as (support & Hsup & Hcells); [by_computation|].
  exists support. split; [exact Hsup|].
  destruct (Hcells 2%nat 1 2 eq_refl) as (_ & _ & Hcell & _).
  rewrite Hcell. vm_compute. reflexivity.
Defined.

(** C9: for every graph and every [k] whose threshold [k - 2] is
    computed without overflow ([INT_MIN + 2 ≤ k]), [kTruss] is a single
    filter over the initial support vector.  Whenever that vector is
    computed, the report is exactly the list of edges whose initial
    support is at least [k - 2], each with that initial value; the loop
    leaves in every cell its initial value or the marker [-1] (nothing
    is decremented), its result is that of the first sweep, and a
    further sweep removes nothing. *)
Theorem pruning_is_one_filter g k :
  threshold_defined k →
  kTruss g k = kTruss_filter g k
  ∧ ∀ support,
      initial_support g = Ok support →
      kTruss g k = Ok (filter (kept k) (all_reports (edge_list g) support))
      ∧ ∃ p changed,
          prune k (numEdges g) support = Ok p
          ∧ prune_pass k (numEdges g) support = Ok (final p, changed)
          ∧ prune_pass k (numEdges g) (final p) = Ok (final p, false)
          ∧ (∀ i s, final p !! i = Some s → s = -1 ∨ support !! i = Some s)
          ∧ (rounds p ≤ 2)%nat.
Proof.
  intros _. split.
  - unfold kTruss_filter. destruct (initial_support g) as [support| |] eqn:Hsup.
    + by apply kTruss_closed.
    + unfold initial_support in Hsup. unfold kTruss.
      destruct (populate g) as [[src dst]| |]; simpl in *; [|done..].
      by rewrite Hsup.
    + unfold initial_support in Hsup. unfold kTruss.
      destruct (populate g) as [[src dst]| |]; simpl in *; [|done..].
      by rewrite Hsup.
  - intros support Hsup.
    split; [by apply kTruss_closed|].
    apply initial_support_partial in Hsup as (_ & Hlen & _).
    eexists _, _. split; [by apply prune_spec|].
    cbn [final rounds]. split_and!.
    + by apply prune_pass_spec.
    + rewrite prune_pass_spec by (by rewrite length_fmap).
      rewrite mark_fmap_id by apply mark_fmap_not_below.
      by rewrite (bool_decide_eq_false_2 _ (mark_fmap_not_below k support)).
    + intros i s. rewrite list_lookup_fmap.
      destruct (support !! i) as [s0|]; [|done]. simpl. intros [= <-].
      destruct (mark_cell k s0) as [->|[-> _]]; auto.
    + repeat case_decide; lia.
Qed.

Lemma pruning_is_one_filter_witness :
  threshold_defined 4
  ∧ initial_support diamond = Ok [1; 1; 2; 1; 1]
  ∧ kTruss diamond 4 = kTruss_filter diamond 4
  ∧ kTruss diamond 4
    = Ok (filter (kept 4) (all_reports (edge_list diamond) [1; 1; 2; 1; 1])).
Proof.
  split; [unfold threshold_defined, int_min; lia|].
  split; [vm_compute; reflexivity|].
  destruct (pruning_is_one_filter diamond 4) as [Heq Hrun];
    [unfold threshold_defined, int_min; lia|].
  split; [exact Heq|].
  apply (Hrun [1; 1; 2; 1; 1]). vm_compute; reflexivity.
Defined.

(** C10: for every graph on which the run is defined and every [k ≤ 2]
    whose threshold is computed without overflow ([INT_MIN + 2 ≤ k]),
    every computed support is non-negative, so the removal test
    [support < k - 2] never holds: the loop marks no cell and every edge
    is reported with its initial support. *)
Theorem no_removal_up_to_k2 g k support :
  initial_support g = Ok support →
  threshold_defined k →
  k ≤ 2 →
  Forall (λ s, 0 ≤ s) support
  ∧ ¬ Exists (below k) support
  ∧ (∃ p, prune k (numEdges g) support = Ok p ∧ final p = support)
  ∧ kTruss g k = Ok (all_reports (edge_list g) support).
Proof.
  intros Hsup _ Hk.
  pose proof (initial_support_nonneg g support Hsup) as Hnn.
  pose proof (not_below_nonneg k support Hk) as Hnb.
  split_and!; [done..| |].
  - apply initial_support_partial in Hsup as (_ & Hlen & _).
    eexists. rewrite prune_spec by done. split; [done|]. simpl.
    by apply mark_fmap_id.
  - rewrite (kTruss_spec g k support Hsup), mark_fmap_id by done.
    unfold all_reports. rewrite filter_kept_all; [done|].
    eapply Forall_impl; [exact Hnn|]. simpl. lia.
Qed.

Lemma no_removal_up_to_k2_witness :
  initial_support diamond = Ok [1; 1; 2; 1; 1]
  ∧ threshold_defined 2 ∧ 2 ≤ 2
  ∧ kTruss diamond 2 = Ok (all_reports (edge_list diamond) [1; 1; 2; 1; 1]).
Proof.
  split; [vm_compute; reflexivity|].
  split; [unfold threshold_defined, int_min; lia|]. split; [lia|].
  apply (no_removal_up_to_k2 diamond 2 [1; 1; 2; 1; 1]);
    [vm_compute; reflexivity|unfold threshold_defined, int_min; lia|lia].
Defined.

(** C6: for every graph on which the run is defined and all thresholds
    [k1 < k2], both runs come back and every edge reported by [kTruss]
    at [k2] is reported at [k1]. *)
Theorem survivors_antitone g k1 k2 support :
  initial_support g = Ok support →
  k1 < k2 →
  ∃ out1 out2,
    kTruss g k1 = Ok out1 ∧ kTruss g k2 = Ok out2
    ∧ out2 ⊆ out1 ∧ surviving out2 ⊆ surviving out1.
Proof.
  intros Hsup Hk.
  pose proof (kTruss_closed g k1 support Hsup) as H1.
  pose proof (kTruss_closed g k2 support Hsup) as H2.
  eexists _, _. split; [exact H1|]. split; [exact H2|].
  assert (Hsub : filter (kept k2) (all_reports (edge_list g) support)
                 ⊆ filter (kept k1) (all_reports (edge_list g) support)).
  { intros r. rewrite !list_elem_of_filter. unfold kept. intros [? ?].
    split; [lia|done]. }
  split; [done|]. unfold surviving. intros e.
  rewrite !list_elem_of_fmap. intros (r & -> & Hr). eauto.
Qed.

Lemma survivors_antitone_witness :
  initial_support diamond = Ok [1; 1; 2; 1; 1] ∧ 3 < 4
  ∧ ∃ out1 out2,
      kTruss diamond 3 = Ok out1 ∧ kTruss diamond 4 = Ok out2
      ∧ out2 ⊆ out1 ∧ surviving out2 ⊆ surviving out1.
Proof.
  split; [vm_compute; reflexivity|]. split; [lia|].
  apply (survivors_antitone diamond 3 4 [1; 1; 2; 1; 1]);
    [vm_compute; reflexivity|lia].
Defined.

(** C7, as stated, fails: on the diamond with [k = 1 < 2] the run is not
    rejected; the loop performs one sweep and all five edges are
    reported. *)
Lemma k_below_two_not_rejected :
  1 < 2
  ∧ valid_graph diamond
  ∧ ¬ rejected (kTruss diamond 1)
  ∧ kTruss diamond 1 = Ok (all_reports (edges diamond) [1; 1; 2; 1; 1])
  ∧ prune 1 (numEdges diamond) [1; 1; 2; 1; 1]
    = Ok (mkPruned [1; 1; 2; 1; 1] 1 true).
Proof.
  split; [lia|]. split; [exact diamond_valid|]. split.
  - intros H. apply (H (all_reports (edges diamond) [1; 1; 2; 1; 1])).
    vm_compute. reflexivity.
  - split; vm_compute; reflexivity.
Qed.

(** C7, amended: [kTruss] has no check on [k].  For every graph on which
    the support vector is computed with every access inside its array,
    and every [k < 2] whose threshold is computed without overflow
    ([INT_MIN + 2 ≤ k]), the run is not rejected: the pruning loop
    performs one sweep (none when there is no edge), marks no cell, and
    every edge is reported with its initial support. *)
Theorem k_below_two_runs g k support :
  initial_support g = Ok support →
  threshold_defined k →
  k < 2 →
  ¬ rejected (kTruss g k)
  ∧ kTruss g k = Ok (all_reports (edge_list g) support)
  ∧ prune k (numEdges g) support
    = Ok (mkPruned support (if decide (numEdges g = 0) then 0 else 1)
            (bool_decide (numEdges g ≠ 0))).
Proof.
  intros Hsup _ Hk.
  pose proof (initial_support_nonneg g support Hsup) as Hnn.
  pose proof (not_below_nonneg k support ltac:(lia)) as Hnb.
  assert (Hrun : kTruss g k = Ok (all_reports (edge_list g) support)).
  { rewrite (kTruss_closed g k support Hsup). unfold all_reports.
    rewrite filter_kept_all; [done|].
    eapply Forall_impl; [exact Hnn|]. simpl. lia. }
  split_and!; [|done|].
  - intros H. by apply (H _ Hrun).
  - apply initial_support_partial in Hsup as (_ & Hlen & _).
    rewrite prune_spec, mark_fmap_id by done. do 2 f_equal.
    + repeat case_decide; tauto.
    + apply bool_decide_ext. tauto.
Qed.

Lemma k_below_two_runs_witness :
  initial_support diamond = Ok [1; 1; 2; 1; 1]
  ∧ threshold_defined 1 ∧ 1 < 2
  ∧ kTruss diamond 1 = Ok (all_reports (edge_list diamond) [1; 1; 2; 1; 1]).
Proof.
  split; [vm_compute; reflexivity|].
  split; [unfold threshold_defined, int_min; lia|]. split; [lia|].
  apply (k_below_two_runs diamond 1 [1; 1; 2; 1; 1]);
    [vm_compute; reflexivity|unfold threshold_defined, int_min; lia|lia].
Defined.

(** C8, as stated, fails: on a single edge with [k = 3] the only sweep
    removes the edge and the loop then leaves through its bound
    [iter < numEdges]; no sweep without a removal is ever run. *)
Lemma single_edge_stops_at_bound :
  valid_graph single_edge
  ∧ 2 ≤ 3
  ∧ initial_support single_edge = Ok [0]
  ∧ prune 3 (numEdges single_edge) [0] = Ok (mkPruned [-1] 1 false).
Proof.
  split; [exact single_edge_valid|]. split; [lia|].
  split; vm_compute; reflexivity.
Qed.

(** C8, amended: for every [k] and every support vector of [n] cells the
    loop of lines 98-107 comes back after at most [n] sweeps, either
    through a sweep that removed nothing or at its bound; in both cases a
    further sweep would remove nothing.  No cell ever grows, cells that
    start non-negative end non-negative or marked, and every sweep that
    removes an edge strictly lowers the number of alive edges. *)
Theorem pruning_loop_terminates k n (support : list Z) :
  Z.of_nat (length support) = n →
  ∃ p,
    prune k n support = Ok p
    ∧ Z.of_nat (rounds p) ≤ n
    ∧ (converged p = true ∨ Z.of_nat (rounds p) = n)
    ∧ prune_pass k n (final p) = Ok (final p, false)
    ∧ Forall2 (λ s s', s' ≤ s) support (final p)
    ∧ (Forall (λ s, 0 ≤ s) support →
       Forall (λ s, 0 ≤ s ∨ s = -1) (final p))
    ∧ ∀ s s', Z.of_nat (length s) = n →
        prune_pass k n s = Ok (s', true) →
        (alive_count s' < alive_count s)%nat.
Proof.
  intros Hlen. eexists. split; [by apply prune_spec|].
  cbn [final rounds converged]. split_and!.
  - repeat case_decide; lia.
  - destruct (decide (n = 0)) as [->|Hn0]; [by right|].
    destruct (decide (Exists (below k) support ∧ 2 ≤ n)) as [[Hex Hn]|Hno].
    + left. apply bool_decide_eq_true_2. tauto.
    + destruct (decide (Exists (below k) support)) as [Hex|Hex].
      * right. assert (¬ 2 ≤ n) by tauto. lia.
      * left. apply bool_decide_eq_true_2. tauto.
  - rewrite prune_pass_spec by (by rewrite length_fmap).
    rewrite mark_fmap_id by apply mark_fmap_not_below.
    by rewrite (bool_decide_eq_false_2 _ (mark_fmap_not_below k support)).
  - apply mark_fmap_le.
  - intros Hnn. apply Forall_fmap. eapply Forall_impl; [exact Hnn|].
    intros s Hs. simpl. destruct (mark_cell k s) as [->|[-> _]]; auto.
  - intros s s' Hs. rewrite prune_pass_spec by done. intros [= <- Hch].
    apply bool_decide_eq_true_1 in Hch. by apply alive_count_mark_lt.
Qed.

Lemma pruning_loop_terminates_witness :
  Z.of_nat (length [0]) = 1
  ∧ ∃ p, prune 3 1 [0] = Ok p ∧ Z.of_nat (rounds p) ≤ 1.
Proof.
  split; [reflexivity|].
  destruct (pruning_loop_terminates 3 1 [0]) as (p & Hp & Hr & _);
    [reflexivity|].
  exists p. split; [exact Hp|exact Hr].
Defined.

(** ** Where the code departs from the specification *)

(** C1: on the diamond with [k = 4] the four outer edges are removed, yet
    the cell of [{1,2}] (index 2), which shared a triangle with each of
    them, still holds its initial value 2 after the loop. *)
Lemma diamond_no_propagation :
  initial_support diamond = Ok [1; 1; 2; 1; 1]
  ∧ prune 4 (numEdges diamond) [1; 1; 2; 1; 1]
    = Ok (mkPruned [-1; -1; 2; -1; -1] 2 true).
Proof. split; vm_compute; reflexivity. Qed.

(** C2: on the diamond [kTruss] at [k = 4] reports the edge [{1,2}] with
    support 2 instead of the empty set. *)
Lemma diamond_4truss_run :
  valid_graph diamond
  ∧ kTruss diamond 4 = Ok [mkReport 2 1 2 2].
Proof. split; [exact diamond_valid|]. vm_compute. reflexivity. Qed.

(** C3: the edge reported on the diamond at [k = 4] lies in no triangle
    of reported edges, although the threshold is 2. *)
Lemma diamond_survivor_unsupported :
  ∃ out,
    kTruss diamond 4 = Ok out
    ∧ surviving out = [(1, 2)]
    ∧ triangle_support (numNodes diamond) (surviving out) (1, 2) = 0
    ∧ ¬ (0 >= 4 - 2).
Proof.
  eexists. split; [vm_compute; reflexivity|].
  split; [reflexivity|]. split; [vm_compute; reflexivity|lia].
Qed.

(** C5: the edges reported on the diamond at [k = 4] form the graph
    [diamond_core]; a second run on it reports nothing. *)
Lemma diamond_not_idempotent :
  ∃ out,
    kTruss diamond 4 = Ok out
    ∧ valid_graph diamond_core
    ∧ numNodes diamond_core = numNodes diamond
    ∧ edges diamond_core = surviving out
    ∧ kTruss diamond_core 4 = Ok []
    ∧ surviving out ≠ [].
Proof.
  eexists. split; [vm_compute; reflexivity|].
  split; [exact diamond_core_valid|].
  split; [reflexivity|]. split; [reflexivity|].
  split; [vm_compute; reflexivity|done].
Qed.

(** ** Further properties of the code *)

(** *** The kernel *)

Lemma merge_loop_le_v colIdx u v uEnd vEnd fuel :
  ∀ i j count c,
    merge_loop fuel colIdx u v uEnd vEnd i j count = Ok c →
    c ≤ count + Z.max 0 (vEnd - j).
Proof.
  induction fuel as [|fuel IH]; intros i j count c; simpl.
  - case_bool_decide; [intros [=]|]. intros [= ->]. lia.
  - case_bool_decide as Hij; [|intros [= ->]; lia].
    destruct (rd colIdx i) as [a| |]; simpl; [|intros [=]..].
    destruct (rd colIdx j) as [b| |]; simpl; [|intros [=]..].
    repeat case_bool_decide; intros Hrun%IH; lia.
Qed.

Lemma count_within_rows_aux rp ci u v c :
  count_edge rp ci u v = Ok c →
  0 ≤ u ∧ is_Some (rp !! Z.to_nat (u + 1))
  ∧ 0 ≤ v ∧ is_Some (rp !! Z.to_nat (v + 1)).
Proof.
  unfold count_edge. intros H.
  apply bind_Ok in H as (us & [Hu _]%rd_Ok & H).
  apply bind_Ok in H as (ue & [_ Hue]%rd_Ok & H).
  apply bind_Ok in H as (vs & [Hv _]%rd_Ok & H).
  apply bind_Ok in H as (ve & [_ Hve]%rd_Ok & H).
  eauto.
Qed.

(** X1: whatever the arrays hold, sorted or not, the [while] loop of
    [countTriangles] stops within the budget of the two row lengths,
    because every iteration advances [i] or [j]; hence a thread, and the
    whole of [kTruss], either comes back or faults on an access outside
    an array. *)
Theorem run_always_ends g k :
  kTruss g k ≠ OutOfFuel
  ∧ ∀ rp ci u v, count_edge rp ci u v ≠ OutOfFuel.
Proof. split; [apply kTruss_fuel|intros; apply count_edge_fuel]. Qed.

(** X2: the count a thread returns lies between 0 and the length of the
    shorter of the two rows it walks, whatever the rows hold. *)
Theorem count_within_rows rp ci u v c :
  count_edge rp ci u v = Ok c →
  ∃ uStart uEnd vStart vEnd,
    rd rp u = Ok uStart ∧ rd rp (u + 1) = Ok uEnd
    ∧ rd rp v = Ok vStart ∧ rd rp (v + 1) = Ok vEnd
    ∧ 0 ≤ c ≤ Z.max 0 (Z.min (uEnd - uStart) (vEnd - vStart)).
Proof.
  unfold count_edge. intros H.
  apply bind_Ok in H as (us & Hus & H). apply bind_Ok in H as (ue & Hue & H).
  apply bind_Ok in H as (vs & Hvs & H). apply bind_Ok in H as (ve & Hve & H).
  exists us, ue, vs, ve. split_and!; [done..| |].
  - by apply merge_loop_ge in H.
  - pose proof (merge_loop_le _ _ _ _ _ _ _ _ _ _ H).
    pose proof (merge_loop_le_v _ _ _ _ _ _ _ _ _ _ H). lia.
Qed.

Lemma count_within_rows_witness :
  count_edge (rowPtr diamond) (colIdx diamond) 1 2 = Ok 2
  ∧ ∃ uStart uEnd vStart vEnd,
      rd (rowPtr diamond) 1 = Ok uStart
      ∧ rd (rowPtr diamond) (1 + 1) = Ok uEnd
      ∧ rd (rowPtr diamond) 2 = Ok vStart
      ∧ rd (rowPtr diamond) (2 + 1) = Ok vEnd
      ∧ 0 ≤ 2 ≤ Z.max 0 (Z.min (uEnd - uStart) (vEnd - vStart)).
Proof.
  split; [vm_compute; reflexivity|].
  apply (count_within_rows (rowPtr diamond) (colIdx diamond) 1 2 2).
  vm_compute; reflexivity.
Defined.

(** *** The grid *)

Lemma bind_assoc {A B C} (r : result A) (f : A → result B) (h : B → result C) :
  (r ≫= f) ≫= h = r ≫= (λ a, f a ≫= h).
Proof. by destruct r. Qed.

Lemma for_from_app {St} (body : Z → St → result St) a b :
  ∀ i s,
    for_from body i (a + b) s
    = for_from body i a s ≫= for_from body (i + Z.of_nat a) b.
Proof.
  induction a as [|a IH]; intros i s; simpl.
  - by replace (i + Z.of_nat 0) with i by lia.
  - rewrite bind_assoc. destruct (body i s) as [t| |]; simpl; [|done..].
    rewrite IH. by replace (i + 1 + Z.of_nat a) with (i + Z.of_nat (S a)) by lia.
Qed.

Lemma surplus_threads rp ci src dst n todo :
  ∀ i s, n ≤ i → for_from (countTriangles rp ci src dst n) i todo s = Ok s.
Proof.
  induction todo as [|todo IH]; intros i s Hi; simpl; [done|].
  assert (countTriangles rp ci src dst n i s = Ok s) as ->.
  { unfold countTriangles. by rewrite bool_decide_eq_true_2 by lia. }
  simpl. apply IH. lia.
Qed.

(** X3: a grid with at least [numEdges] threads behaves as exactly one
    thread per edge: the threads whose index is past [numEdges] leave
    [support] untouched, also when the run faults.  The grid of line 75
    is such a grid. *)
Theorem grid_is_one_thread_per_edge rp ci src dst n blocks threads s0 :
  0 ≤ n ≤ blocks * threads →
  launch_countTriangles blocks threads rp ci src dst n s0
  = for_loop n (countTriangles rp ci src dst n) s0
  ∧ n ≤ (n + 256 - 1) `quot` 256 * 256.
Proof.
  intros Hn. split; [|apply grid_covers; lia].
  unfold launch_countTriangles, for_loop.
  replace (Z.to_nat (blocks * threads))
    with (Z.to_nat n + (Z.to_nat (blocks * threads) - Z.to_nat n))%nat by lia.
  rewrite for_from_app.
  destruct (for_from (countTriangles rp ci src dst n) 0 (Z.to_nat n) s0)
    as [s| |]; simpl; [|done..].
  apply surplus_threads. lia.
Qed.

Lemma grid_is_one_thread_per_edge_witness :
  0 ≤ 5 ≤ 1 * 256
  ∧ launch_countTriangles 1 256 (rowPtr diamond) (colIdx diamond)
      [0; 0; 1; 1; 2] [1; 2; 2; 3; 3] 5 [0; 0; 0; 0; 0]
    = for_loop 5 (countTriangles (rowPtr diamond) (colIdx diamond)
                    [0; 0; 1; 1; 2] [1; 2; 2; 3; 3] 5) [0; 0; 0; 0; 0].
Proof.
  split; [lia|].
  apply (grid_is_one_thread_per_edge (rowPtr diamond) (colIdx diamond)
           [0; 0; 1; 1; 2] [1; 2; 2; 3; 3] 5 1 256 [0; 0; 0; 0; 0]).
  lia.
Defined.

(** *** The edge arrays *)

(** X4: when [numEdges] is between 0 and the size of [g.edges],
    lines 48-52 fill two arrays of [numEdges] cells whose zip is the
    first [numEdges] pairs of [g.edges] again; pairs listed beyond
    [numEdges] are ignored. *)
Theorem populate_round_trip g :
  0 ≤ numEdges g ≤ Z.of_nat (length (edges g)) →
  ∃ src dst,
    populate g = Ok (src, dst)
    ∧ zip src dst = take (Z.to_nat (numEdges g)) (edges g)
    ∧ Z.of_nat (length src) = numEdges g
    ∧ Z.of_nat (length dst) = numEdges g.
Proof.
  intros Hn. eexists _, _. split; [by apply populate_total|].
  rewrite zip_fst_snd, !length_fmap.
  pose proof (length_edge_list g Hn). done.
Qed.

Lemma populate_round_trip_witness :
  0 ≤ numEdges diamond ≤ Z.of_nat (length (edges diamond))
  ∧ ∃ src dst,
      populate diamond = Ok (src, dst)
      ∧ zip src dst = take (Z.to_nat (numEdges diamond)) (edges diamond)
      ∧ Z.of_nat (length src) = numEdges diamond
      ∧ Z.of_nat (length dst) = numEdges diamond.
Proof.
  split; [simpl; lia|].
  apply (populate_round_trip diamond). simpl. lia.
Defined.

(** *** Runs that come back *)

Lemma initial_support_csr g support :
  initial_support g = Ok support →
  ∃ nnz, rd (rowPtr g) (numNodes g) = Ok nnz
         ∧ 0 ≤ nnz ≤ Z.of_nat (length (colIdx g)).
Proof.
  unfold initial_support. intros H.
  apply bind_Ok in H as ([src dst] & _ & H). unfold compute_support in H.
  apply bind_Ok in H as (nnz & Hnnz & H). exists nnz. split; [done|].
  apply bind_Ok in H as (d_rowPtr & _ & H).
  apply bind_Ok in H as (d_colIdx & Hci & _).
  by apply memcpy_Ok in Hci as [? _].
Qed.

(** X5: if every access of lines 47-89 stays inside its array and every
    allocation and copy succeeds, then the sizes and endpoints were in
    range: [numEdges] fits the edge list, [rowPtr] has a cell
    [numNodes] whose value is a number of cells that [colIdx] has, and
    every edge looked at has both endpoints in [0, numNodes).  So a
    graph breaking one of these drives the source into an access outside
    an array (or a failed allocation or copy), which the source does not
    detect: it goes on and what it then reports is not determined. *)
Theorem returning_run_input g support :
  initial_support g = Ok support →
  0 ≤ numEdges g ≤ Z.of_nat (length (edges g))
  ∧ 0 ≤ numNodes g < Z.of_nat (length (rowPtr g))
  ∧ 0 ≤ rowPtr g !!! Z.to_nat (numNodes g) ≤ Z.of_nat (length (colIdx g))
  ∧ Forall (λ e, 0 ≤ e.1 < numNodes g ∧ 0 ≤ e.2 < numNodes g) (edge_list g).
Proof.
  intros Hsup.
  destruct (initial_support_csr g support Hsup) as (nnz & Hnnz & Hci).
  apply rd_Ok in Hnnz as [Hnn Hnnz].
  apply initial_support_partial in Hsup as (Hn & _ & Hcells).
  split; [done|]. split; [|split].
  - apply lookup_lt_Some in Hnnz. lia.
  - by rewrite (list_lookup_total_correct _ _ _ Hnnz).
  - apply Forall_lookup_2. intros i [u v] He. simpl.
    destruct (Hcells _ _ _ He) as (c & Hc & _).
    apply count_within_rows_aux in Hc as (Hu & [a Hu1] & Hv & [b Hv1]).
    assert (Hlen : (length (dev_rowPtr g) ≤ Z.to_nat (numNodes g + 1))%nat).
    { unfold dev_rowPtr. rewrite length_take. lia. }
    apply lookup_lt_Some in Hu1, Hv1. lia.
Qed.

Lemma returning_run_input_witness :
  initial_support main_graph = Ok [1; 1; 1; 0; 0]
  ∧ Forall (λ e, 0 ≤ e.1 < 4 ∧ 0 ≤ e.2 < 4) (edge_list main_graph).
Proof.
  split; [vm_compute; reflexivity|].
  apply (returning_run_input main_graph [1; 1; 1; 0; 0]).
  vm_compute; reflexivity.
Defined.

Lemma merge_loop_safe ci u v uEnd vEnd fuel :
  ∀ i j count,
    0 ≤ i → 0 ≤ j →
    uEnd ≤ Z.of_nat (length ci) → vEnd ≤ Z.of_nat (length ci) →
    (Z.to_nat (uEnd - i) + Z.to_nat (vEnd - j) ≤ fuel)%nat →
    ∃ c, merge_loop fuel ci u v uEnd vEnd i j count = Ok c.
Proof.
  induction fuel as [|fuel IH]; intros i j count Hi Hj Hu Hv Hfuel; simpl.
  - rewrite bool_decide_eq_false_2 by lia. by eexists.
  - case_bool_decide as Hij; [|by eexists].
    destruct (lookup_lt_is_Some_2 ci (Z.to_nat i)) as [a Ha]; [lia|].
    destruct (lookup_lt_is_Some_2 ci (Z.to_nat j)) as [b Hb]; [lia|].
    assert (rd ci i = Ok a) as -> by (by apply rd_Ok).
    assert (rd ci j = Ok b) as -> by (by apply rd_Ok). simpl.
    repeat case_bool_decide; apply IH; lia.
Qed.

Lemma valid_in_bounds g : valid_graph g → in_bounds g.
Proof.
  intros Hvalid. pose proof (valid_last g Hvalid) as Hlast.
  pose proof (list_lookup_total_correct _ _ _ Hlast) as Hnnz.
  pose proof Hvalid
    as (Hne & (Hends & _) & (Hn & Hlen & H0 & Hsorted & _) & _).
  unfold in_bounds. rewrite Hnnz. split_and!; try lia.
  - rewrite (valid_dev_rowPtr g Hvalid).
    apply Sorted_StronglySorted in Hsorted; [|apply _].
    apply Forall_lookup_2. intros i p Hp.
    pose proof (lookup_lt_Some _ _ _ Hp). split.
    + eapply (sorted_lookup_le _ _ _ _ _ Hsorted); [|exact H0|exact Hp]. lia.
    + eapply (sorted_lookup_le _ _ _ _ _ Hsorted); [|exact Hp|exact Hlast].
      lia.
  - rewrite (valid_edge_list g Hvalid).
    eapply Forall_impl; [exact Hends|]. simpl. tauto.
Qed.

(** X6: sizes and indices in range are enough for the run to come back,
    for every [k]: the rows need not be sorted nor describe the edge
    list.  Every well-formed graph is in range; so is the graph of
    [main], which is not well-formed. *)
Theorem in_bounds_run_returns g k :
  (valid_graph g → in_bounds g)
  ∧ (in_bounds g →
     ∃ support out,
       initial_support g = Ok support
       ∧ Z.of_nat (length support) = numEdges g
       ∧ kTruss g k = Ok out).
Proof.
  split; [apply valid_in_bounds|].
  intros (Hn & Hnnz & Hnodes & Hrows & Hends).
  set (nnz := rowPtr g !!! Z.to_nat (numNodes g)) in *.
  assert (Hrd : rd (rowPtr g) (numNodes g) = Ok nnz).
  { apply rd_Ok. split; [lia|]. apply list_lookup_lookup_total_lt. lia. }
  assert (Hcell : ∀ x, 0 ≤ x ≤ numNodes g →
            ∃ p, rd (dev_rowPtr g) x = Ok p ∧ 0 ≤ p ≤ nnz).
  { intros x Hx.
    destruct (lookup_lt_is_Some_2 (dev_rowPtr g) (Z.to_nat x)) as [p Hp].
    { unfold dev_rowPtr. rewrite length_take. lia. }
    exists p. split; [apply rd_Ok; split; [lia|done]|].
    rewrite Forall_forall in Hrows.
    apply Hrows, list_elem_of_lookup. eauto. }
  destruct (initial_support_total g nnz) as [support Hsup]; [done..| |].
  { intros e u v He. rewrite Forall_forall in Hends.
    destruct (Hends _ (list_elem_of_lookup_2 _ _ _ He)) as [Hu Hv].
    simpl in *. unfold count_edge.
    destruct (Hcell u) as (us & -> & Hus); [lia|].
    destruct (Hcell (u + 1)) as (ue & -> & Hue); [lia|].
    destruct (Hcell v) as (vs & -> & Hvs); [lia|].
    destruct (Hcell (v + 1)) as (ve & -> & Hve); [lia|]. simpl.
    assert (Z.of_nat (length (dev_colIdx g)) = nnz).
    { unfold dev_colIdx. fold nnz. rewrite length_take. lia. }
    apply merge_loop_safe; lia. }
  exists support. eexists. split; [done|]. split.
  - by apply initial_support_partial in Hsup as (_ & Hlen & _).
  - by apply kTruss_closed.
Qed.

Lemma in_bounds_run_returns_witness :
  in_bounds main_graph
  ∧ ∃ support out,
      initial_support main_graph = Ok support
      ∧ Z.of_nat (length support) = numEdges main_graph
      ∧ kTruss main_graph 3 = Ok out.
Proof.
  split; [by_computation|].
  destruct (in_bounds_run_returns main_graph 3) as [_ Hrun].
  apply Hrun. by_computation.
Defined.

Lemma filter_kept_none k es (support : list Z) i :
  Forall (λ s, s < k - 2) support →
  filter (kept k) (reports_from i es support) = [].
Proof.
  revert i support. induction es as [|e es IH]; intros i [|s support] H;
    try done.
  apply Forall_cons in H as [Hs H]. simpl.
  rewrite filter_cons_False by (unfold kept; simpl; lia).
  by apply IH.
Qed.

(** X7: with no edge the run reports nothing, for every [k], and the
    pruning loop performs no sweep; the run still reads
    [rowPtr[numNodes]] and copies that many cells of [colIdx], so these
    must exist. *)
Theorem no_edge_no_report g k nnz :
  numEdges g = 0 →
  rd (rowPtr g) (numNodes g) = Ok nnz →
  0 ≤ nnz ≤ Z.of_nat (length (colIdx g)) →
  initial_support g = Ok []
  ∧ prune k (numEdges g) [] = Ok (mkPruned [] 0 false)
  ∧ kTruss g k = Ok [].
Proof.
  intros Hn Hnnz Hci.
  destruct (initial_support_total g nnz) as [support Hsup]; [lia|done..| |].
  { unfold edge_list. rewrite Hn. intros e u v He. by destruct (edges g). }
  pose proof (initial_support_partial g support Hsup) as (_ & Hlen & _).
  assert (support = []) as -> by (apply length_zero_iff_nil; lia).
  split; [done|]. split; [by rewrite Hn|].
  rewrite (kTruss_closed g k [] Hsup). unfold all_reports.
  by rewrite reports_from_nil_r.
Qed.

Lemma no_edge_no_report_witness :
  numEdges isolated = 0
  ∧ rd (rowPtr isolated) (numNodes isolated) = Ok 0
  ∧ kTruss isolated 3 = Ok [].
Proof.
  split; [reflexivity|]. split; [vm_compute; reflexivity|].
  apply (no_edge_no_report isolated 3 0);
    [reflexivity|vm_compute; reflexivity|simpl; lia].
Defined.

(** *** Well-formed graphs *)

Lemma common_neighbours_comm n es u v :
  common_neighbours n es u v = common_neighbours n es v u.
Proof. unfold common_neighbours. apply list_filter_iff. tauto. Qed.

(** X8: on a well-formed graph the count does not depend on the
    orientation in which an edge is listed: the thread of [(u, v)] and
    the thread of [(v, u)] return the same value. *)
Theorem count_is_symmetric g u v :
  valid_graph g →
  0 ≤ u < numNodes g → 0 ≤ v < numNodes g →
  ∃ c, count_edge (rowPtr g) (colIdx g) u v = Ok c
       ∧ count_edge (rowPtr g) (colIdx g) v u = Ok c.
Proof.
  intros Hvalid Hu Hv. eexists. split.
  - rewrite count_edge_valid, merge_common_valid by done. done.
  - rewrite count_edge_valid, merge_common_valid by done. do 2 f_equal.
    rewrite (Permutation_length
               (intersection_common_neighbours g Hvalid v u Hv Hu)).
    rewrite (Permutation_length
               (intersection_common_neighbours g Hvalid u v Hu Hv)).
    by rewrite common_neighbours_comm.
Qed.

Lemma count_is_symmetric_witness :
  valid_graph diamond ∧ 0 ≤ 1 < 4 ∧ 0 ≤ 2 < 4
  ∧ ∃ c, count_edge (rowPtr diamond) (colIdx diamond) 1 2 = Ok c
         ∧ count_edge (rowPtr diamond) (colIdx diamond) 2 1 = Ok c.
Proof.
  split; [by_computation|]. split; [lia|]. split; [lia|].
  apply (count_is_symmetric diamond 1 2); [by_computation|simpl; lia..].
Defined.

Lemma common_neighbours_bound g u v :
  valid_graph g →
  0 ≤ u < numNodes g → 0 ≤ v < numNodes g → u ≠ v →
  Z.of_nat (length (common_neighbours (numNodes g) (edges g) u v))
  ≤ numNodes g - 2.
Proof.
  intros Hvalid Hu Hv Huv.
  set (l := common_neighbours (numNodes g) (edges g) u v).
  assert (Hin : ∀ w, w ∈ l → adjacent (edges g) u w ∧ adjacent (edges g) v w).
  { intros w Hw. apply list_elem_of_filter in Hw. tauto. }
  assert (Hsub : u :: v :: l ⊆+ seqZ 0 (numNodes g)).
  { apply NoDup_submseteq.
    - repeat constructor.
      + rewrite elem_of_cons. intros [?|Hw]; [done|].
        apply Hin in Hw as [Hw _]. apply (valid_adjacent g Hvalid) in Hw. lia.
      + intros Hw. apply Hin in Hw as [_ Hw].
        apply (valid_adjacent g Hvalid) in Hw. lia.
      + apply NoDup_filter, NoDup_seqZ.
    - intros w. rewrite !elem_of_cons, elem_of_seqZ. intros [->|[->|Hw]];
        [lia..|].
      apply list_elem_of_filter in Hw as [_ Hw]. by apply elem_of_seqZ in Hw. }
  apply submseteq_length in Hsub. rewrite length_seqZ in Hsub. simpl in Hsub.
  lia.
Qed.

Lemma support_valid_cells g support :
  valid_graph g → initial_support g = Ok support →
  ∀ e s, support !! e = Some s →
    ∃ u v, edges g !! e = Some (u, v)
           ∧ s = Z.of_nat (length
                   (common_neighbours (numNodes g) (edges g) u v)).
Proof.
  intros Hvalid Hsup e s Hs.
  destruct (initial_support_valid g Hvalid) as (support' & Hsup' & Hcells).
  rewrite Hsup in Hsup'. injection Hsup' as <-.
  apply initial_support_partial in Hsup as (_ & Hlen & _).
  pose proof (lookup_lt_Some _ _ _ Hs) as Hlt.
  rewrite (valid_numEdges g Hvalid) in Hlen.
  destruct (lookup_lt_is_Some_2 (edges g) e) as [[u v] He]; [lia|].
  exists u, v. split; [done|].
  rewrite (Hcells _ _ _ He) in Hs. injection Hs as <-.
  pose proof (list_elem_of_lookup_2 _ _ _ He) as Hin.
  apply (valid_endpoints g Hvalid) in Hin as (Hu & Hv & _).
  by rewrite (Permutation_length
                (intersection_common_neighbours g Hvalid u v Hu Hv)).
Qed.

(** X9: on a well-formed graph no support exceeds [numNodes - 2] (the
    two endpoints of an edge are never counted), so for every
    [k > numNodes] the report is empty. *)
Theorem support_at_most_other_nodes g :
  valid_graph g →
  ∃ support,
    initial_support g = Ok support
    ∧ Forall (λ s, 0 ≤ s ≤ numNodes g - 2) support
    ∧ ∀ k, numNodes g < k → kTruss g k = Ok [].
Proof.
  intros Hvalid.
  destruct (initial_support_valid g Hvalid) as (support & Hsup & _).
  exists support. split; [done|].
  assert (Hbound : Forall (λ s, 0 ≤ s ≤ numNodes g - 2) support).
  { apply Forall_lookup_2. intros e s Hs.
    destruct (support_valid_cells g support Hvalid Hsup e s Hs)
      as (u & v & He & ->).
    apply list_elem_of_lookup_2, (valid_endpoints g Hvalid) in He
      as (Hu & Hv & Huv).
    split; [lia|]. by apply common_neighbours_bound. }
  split; [done|]. intros k Hk.
  rewrite (kTruss_closed g k support Hsup). unfold all_reports.
  rewrite filter_kept_none; [done|].
  eapply Forall_impl; [exact Hbound|]. simpl. lia.
Qed.

Lemma support_at_most_other_nodes_witness :
  valid_graph diamond
  ∧ ∃ support, initial_support diamond = Ok support
               ∧ Forall (λ s, 0 ≤ s ≤ 4 - 2) support
               ∧ ∀ k, 4 < k → kTruss diamond k = Ok [].
Proof.
  split; [by_computation|].
  apply (support_at_most_other_nodes diamond). by_computation.
Defined.

(** X10: on a well-formed graph without a triangle every support is 0
    and, for every [k ≥ 3], the report is empty. *)
Theorem triangle_free_graph g k :
  valid_graph g →
  Forall (λ e, common_neighbours (numNodes g) (edges g) e.1 e.2 = [])
         (edges g) →
  3 ≤ k →
  ∃ support,
    initial_support g = Ok support
    ∧ Forall (λ s, s = 0) support
    ∧ kTruss g k = Ok [].
Proof.
  intros Hvalid Hfree Hk.
  destruct (initial_support_valid g Hvalid) as (support & Hsup & _).
  exists support. split; [done|].
  assert (Hzero : Forall (λ s, s = 0) support).
  { apply Forall_lookup_2. intros e s Hs.
    destruct (support_valid_cells g support Hvalid Hsup e s Hs)
      as (u & v & He & ->).
    rewrite Forall_forall in Hfree.
    pose proof (Hfree (u, v) (list_elem_of_lookup_2 _ _ _ He)) as Hnone.
    simpl in Hnone. by rewrite Hnone. }
  split; [done|].
  rewrite (kTruss_closed g k support Hsup). unfold all_reports.
  rewrite filter_kept_none; [done|].
  eapply Forall_impl; [exact Hzero|]. simpl. lia.
Qed.

Lemma triangle_free_graph_witness :
  valid_graph path3 ∧ 3 ≤ 3
  ∧ ∃ support, initial_support path3 = Ok support
               ∧ Forall (λ s, s = 0) support
               ∧ kTruss path3 3 = Ok [].
Proof.
  split; [by_computation|]. split; [lia|].
  apply (triangle_free_graph path3 3); [by_computation|by_computation|lia].
Defined.

(** *** The report *)

(** X11: the report at a threshold is the report at any smaller
    threshold filtered once more: a run at [k2] can be derived from the
    output of a run at [k1 ≤ k2], for thresholds computed without
    overflow ([INT_MIN + 2 ≤ k1]). *)
Theorem larger_threshold_filters_report g k1 k2 support :
  initial_support g = Ok support →
  threshold_defined k1 →
  k1 ≤ k2 →
  ∃ out1,
    kTruss g k1 = Ok out1 ∧ kTruss g k2 = Ok (filter (kept k2) out1).
Proof.
  intros Hsup _ Hk. eexists. split; [by apply kTruss_closed|].
  rewrite (kTruss_closed g k2 support Hsup), list_filter_filter.
  f_equal. apply list_filter_iff. intros r. unfold kept. split; [|tauto].
  intros Hr. split; [done|lia].
Qed.

Lemma larger_threshold_filters_report_witness :
  initial_support diamond = Ok [1; 1; 2; 1; 1]
  ∧ threshold_defined 3 ∧ 3 ≤ 4
  ∧ ∃ out1, kTruss diamond 3 = Ok out1
            ∧ kTruss diamond 4 = Ok (filter (kept 4) out1).
Proof.
  split; [vm_compute; reflexivity|].
  split; [unfold threshold_defined, int_min; lia|]. split; [lia|].
  apply (larger_threshold_filters_report diamond 3 4 [1; 1; 2; 1; 1]);
    [vm_compute; reflexivity|unfold threshold_defined, int_min; lia|lia].
Defined.

Lemma support_as_map g support :
  initial_support g = Ok support → support = cnt g <$> edge_list g.
Proof.
  intros (Hn & Hlen & Hcells)%initial_support_partial.
  pose proof (length_edge_list g Hn) as Hel.
  apply list_eq. intros i. rewrite list_lookup_fmap.
  destruct (edge_list g !! i) as [[u v]|] eqn:He; simpl.
  - destruct (Hcells _ _ _ He) as (c & Hc & ->). unfold cnt. simpl.
    by rewrite Hc.
  - apply lookup_ge_None in He. apply lookup_ge_None. lia.
Qed.

Lemma surviving_reports k (f : Z * Z → Z) es :
  ∀ i, surviving (filter (kept k) (reports_from i es (f <$> es)))
       = filter (λ e, f e >= k - 2) es.
Proof.
  induction es as [|[u v] es IH]; intros i; [done|]. csimpl.
  rewrite !filter_cons. unfold kept at 1. simpl.
  destruct (decide (f (u, v) >= k - 2)); [|apply IH].
  unfold surviving in *. csimpl. by rewrite IH.
Qed.

Lemma report_indices k es :
  ∀ i (support : list Z),
    Forall (λ r, i ≤ r_index r) (filter (kept k) (reports_from i es support))
    ∧ StronglySorted Z.lt
        (r_index <$> filter (kept k) (reports_from i es support)).
Proof.
  induction es as [|e es IH]; intros i [|s support]; simpl;
    try (split; constructor).
  destruct (IH (i + 1) support) as [Hge Hsorted].
  assert (Hgt : Forall (λ r, i < r_index r)
                  (filter (kept k) (reports_from (i + 1) es support))).
  { eapply Forall_impl; [exact Hge|]. simpl. lia. }
  rewrite filter_cons. case_decide; csimpl.
  - split.
    + constructor; [simpl; lia|].
      eapply Forall_impl; [exact Hgt|]. simpl. lia.
    + constructor; [done|]. by apply Forall_fmap.
  - split; [|done]. eapply Forall_impl; [exact Hgt|]. simpl. lia.
Qed.

Lemma report_cells es :
  ∀ i (support : list Z),
    Forall (λ r, i ≤ r_index r
                 ∧ es !! Z.to_nat (r_index r - i) = Some (r_src r, r_dst r)
                 ∧ support !! Z.to_nat (r_index r - i) = Some (r_support r))
           (reports_from i es support).
Proof.
  induction es as [|[u v] es IH]; intros i [|s support]; simpl;
    try constructor.
  - simpl. rewrite Z.sub_diag. split; [lia|done].
  - eapply Forall_impl; [apply (IH (i + 1) support)|].
    intros r (Hge & Hes & Hsup). simpl in *.
    replace (Z.to_nat (r_index r - i))
      with (S (Z.to_nat (r_index r - (i + 1)))) by lia.
    split; [lia|done].
Qed.

(** X12: the report follows the edge list.  Its lines come in strictly
    increasing edge index (no edge is reported twice); each line names
    the edge stored at its index together with the support computed for
    it, which is at least [k - 2]; and the reported edges are, in order,
    the listed edges whose own count is at least [k - 2].  This is for
    every [k] whose threshold is computed without overflow
    ([INT_MIN + 2 ≤ k]). *)
Theorem report_follows_edge_list g k support :
  initial_support g = Ok support →
  threshold_defined k →
  ∃ out,
    kTruss g k = Ok out
    ∧ StronglySorted Z.lt (r_index <$> out)
    ∧ surviving out = filter (λ e, cnt g e >= k - 2) (edge_list g)
    ∧ Forall (λ r, 0 ≤ r_index r
                   ∧ edge_list g !! Z.to_nat (r_index r)
                     = Some (r_src r, r_dst r)
                   ∧ support !! Z.to_nat (r_index r) = Some (r_support r)
                   ∧ r_support r >= k - 2) out.
Proof.
  intros Hsup _. eexists. split; [by apply kTruss_closed|].
  unfold all_reports. split_and!.
  - apply report_indices.
  - rewrite (support_as_map g support Hsup). apply surviving_reports.
  - apply Forall_forall. intros r [Hkept Hr]%list_elem_of_filter.
    pose proof (report_cells (edge_list g) 0 support) as Hcells.
    rewrite Forall_forall in Hcells.
    destruct (Hcells r Hr) as (Hge & Hes & Hs).
    rewrite Z.sub_0_r in Hes, Hs. done.
Qed.

Lemma report_follows_edge_list_witness :
  initial_support diamond = Ok [1; 1; 2; 1; 1]
  ∧ threshold_defined 4
  ∧ ∃ out, kTruss diamond 4 = Ok out
           ∧ StronglySorted Z.lt (r_index <$> out).
Proof.
  split; [vm_compute; reflexivity|].
  split; [unfold threshold_defined, int_min; lia|].
  destruct (report_follows_edge_list diamond 4 [1; 1; 2; 1; 1])
    as (out & Hrun & Hsorted & _);
    [vm_compute; reflexivity|unfold threshold_defined, int_min; lia|].
  exists out. split; [exact Hrun|exact Hsorted].
Defined.

(** X13: the order of the edge list does not matter.  With the same CSR
    arrays and the edges listed in another order, the run comes back
    again and reports the same edges, up to that reordering. *)
Theorem edge_order_is_irrelevant g k support es :
  initial_support g = Ok support →
  numEdges g = Z.of_nat (length (edges g)) →
  es ≡ₚ edges g →
  ∃ out out',
    kTruss g k = Ok out
    ∧ kTruss (with_edges g es) k = Ok out'
    ∧ surviving out' ≡ₚ surviving out.
Proof.
  intros Hsup Hn Hperm.
  assert (Hel : edge_list g = edges g).
  { unfold edge_list. rewrite Hn. apply take_ge. lia. }
  assert (Hel' : edge_list (with_edges g es) = es).
  { unfold edge_list, with_edges. simpl. apply take_ge. lia. }
  destruct (initial_support_csr g support Hsup) as (nnz & Hnnz & Hci).
  pose proof (initial_support_partial g support Hsup) as (_ & _ & Hcells).
  destruct (initial_support_total (with_edges g es) nnz) as [support' Hsup'];
    [simpl; lia|done..| |].
  { rewrite Hel'. intros e u v He.
    apply list_elem_of_lookup_2 in He. rewrite Hperm, <-Hel in He.
    apply list_elem_of_lookup_1 in He as [e' He'].
    destruct (Hcells _ _ _ He') as (c & Hc & _). by exists c. }
  eexists _, _. split; [by apply kTruss_closed|].
  split; [by apply kTruss_closed|]. unfold all_reports.
  rewrite (support_as_map g support Hsup).
  rewrite (support_as_map _ support' Hsup'), !surviving_reports, Hel, Hel'.
  by rewrite Hperm.
Qed.

Lemma edge_order_is_irrelevant_witness :
  initial_support diamond = Ok [1; 1; 2; 1; 1]
  ∧ ∃ out out',
      kTruss diamond 3 = Ok out
      ∧ kTruss (with_edges diamond [(2, 3); (0, 1); (1, 3); (0, 2); (1, 2)]) 3
        = Ok out'
      ∧ surviving out' ≡ₚ surviving out.
Proof.
  split; [vm_compute; reflexivity|].
  apply (edge_order_is_irrelevant diamond 3 [1; 1; 2; 1; 1]);
    [vm_compute; reflexivity|reflexivity|].
  apply (bool_decide_unpack _). vm_compute. exact I.
Defined.

(** *** Sorted rows in general *)

(** X14: on any two strictly ascending rows that lie inside [colIdx],
    whether or not they describe a simple undirected graph, a thread
    returns the number of members of the row of [u], other than [v],
    that also occur in the row of [v] and are not [u]. *)
Theorem count_on_sorted_rows rp ci u v uStart uEnd vStart vEnd :
  rd rp u = Ok uStart → rd rp (u + 1) = Ok uEnd →
  rd rp v = Ok vStart → rd rp (v + 1) = Ok vEnd →
  0 ≤ uStart → uEnd ≤ Z.of_nat (length ci) →
  0 ≤ vStart → vEnd ≤ Z.of_nat (length ci) →
  StronglySorted Z.lt (row rp ci u) →
  StronglySorted Z.lt (row rp ci v) →
  count_edge rp ci u v
  = Ok (Z.of_nat (length (merge_common u v (row rp ci u) (row rp ci v)))).
Proof.
  intros Hus Hue Hvs Hve Hu0 Hu1 Hv0 Hv1 Su Sv.
  unfold count_edge. rewrite Hus, Hue, Hvs, Hve. simpl.
  apply rd_Ok in Hus as [_ Hus]. apply rd_Ok in Hue as [_ Hue].
  apply rd_Ok in Hvs as [_ Hvs]. apply rd_Ok in Hve as [_ Hve].
  unfold row in *.
  rewrite (list_lookup_total_correct _ _ _ Hus),
          (list_lookup_total_correct _ _ _ Hue) in Su |- *.
  rewrite (list_lookup_total_correct _ _ _ Hvs),
          (list_lookup_total_correct _ _ _ Hve) in Sv |- *.
  rewrite merge_loop_spec by (done || lia). by rewrite Z.add_0_l.
Qed.

Lemma count_on_sorted_rows_witness :
  row (rowPtr main_graph) (colIdx main_graph) 1 = [0; 2]
  ∧ row (rowPtr main_graph) (colIdx main_graph) 2 = [0; 1]
  ∧ count_edge (rowPtr main_graph) (colIdx main_graph) 1 2
    = Ok (Z.of_nat (length
            (merge_common 1 2
               (row (rowPtr main_graph) (colIdx main_graph) 1)
               (row (rowPtr main_graph) (colIdx main_graph) 2)))).
Proof.
  split; [reflexivity|]. split; [reflexivity|].
  apply (count_on_sorted_rows (rowPtr main_graph) (colIdx main_graph)
           1 2 2 4 4 6);
    try (vm_compute; reflexivity); try (simpl; lia);
    apply (bool_decide_unpack _); vm_compute; exact I.
Defined.

(** *** The caller *)

(** X15: [main] runs [kTruss] with [k = 3] on CSR arrays that are not a
    well-formed description of its edge list, yet in range; the run
    comes back and reports the three edges of the triangle 0-1-2, each
    with support 1, and neither [1-3] nor [2-3]. *)
Theorem main_output :
  main = Ok [mkReport 0 0 1 1; mkReport 1 0 2 1; mkReport 2 1 2 1]
  ∧ in_bounds main_graph
  ∧ ¬ valid_graph main_graph.
Proof.
  split; [vm_compute; reflexivity|]. split; [by_computation|].
  apply main_graph_invalid.
Qed.
